(** * Verification of the dynamic-pricing DQN core (python-dqn)

    Shallow embedding of [src/utils/reward.py],
    [src/environment/state_encoder.py], [src/environment/pricing_env.py] and
    [src/models/replay_buffer.py].  Python floats are modelled as real
    numbers ([R]); rounding is not modelled.  Python ints used as indices are
    [nat] or [Z] (for indices that may be negative).  A method that mutates
    [self] is a function returning the new object; a raised exception is an
    [Err] (or [None]) result. *)

From Stdlib Require Import Reals Lra Lia List ZArith QArith Qround Sorted.
Import ListNotations.

Open Scope R_scope.

(** ** Python helpers *)

(** Exceptions raised by the modelled code. *)
Inductive py_error := ValueError | IndexError | ZeroDivisionError.

(** A call's outcome: a return value or a raised exception. *)
Inductive result (A : Type) := Ok (a : A) | Err (e : py_error).
Arguments Ok {A} a.
Arguments Err {A} e.

(** [dict.get(key, default)] for an optional field. *)
Definition get (o : option R) (d : R) : R :=
  match o with Some v => v | None => d end.

(** [l[i]] of a Python list or 1-d numpy array, negative indices counting
    from the end; [None] is an [IndexError]. *)
Definition np_index {A} (l : list A) (i : Z) : option A :=
  if (0 <=? i)%Z then nth_error l (Z.to_nat i)
  else if (- Z.of_nat (length l) <=? i)%Z
       then nth_error l (Z.to_nat (Z.of_nat (length l) + i))
       else None.

(** [arr[i] = v] on a fixed-size array ([i] in range). *)
Fixpoint set_nth {A} (l : list A) (i : nat) (v : A) : list A :=
  match l, i with
  | [], _ => []
  | _ :: t, O => v :: t
  | x :: t, S j => x :: set_nth t j v
  end.

(** [arr.min()] / [arr.max()]: a [ValueError] on an empty array. *)
Definition list_min (l : list R) : option R :=
  match l with [] => None | x :: t => Some (fold_left Rmin t x) end.
Definition list_max (l : list R) : option R :=
  match l with [] => None | x :: t => Some (fold_left Rmax t x) end.

Definition sum_list (l : list R) : R := fold_right Rplus 0 l.

(** [np.mean] of a non-empty array. *)
Definition mean (l : list R) : R := sum_list l / INR (length l).

(** [np.sort]: ascending insertion sort. *)
Fixpoint insert_sorted (x : R) (l : list R) : list R :=
  match l with
  | [] => [x]
  | y :: t => if Rle_dec x y then x :: y :: t else y :: insert_sorted x t
  end.
Fixpoint sort (l : list R) : list R :=
  match l with [] => [] | x :: t => insert_sorted x (sort t) end.

(** [arr[arr > 0]]. *)
Definition positives (l : list R) : list R :=
  filter (fun x => if Rlt_dec 0 x then true else false) l.

(** [np.clip(e, lo, hi)]. *)
Definition clip (e lo hi : R) : R := Rmin (Rmax e lo) hi.

(** ** utils/reward.py *)
Module Reward.

(** Reward weights dictionary [{'revenue', 'margin', 'volume'}]. *)
Record weights := mk_weights {
  w_revenue : R; w_margin : R; w_volume : R }.

(** [normalize(value, min_val, max_val)]. *)
Definition normalize (value min_val max_val : R) : R :=
  if Req_dec_T max_val min_val then 0
  else (value - min_val) / (max_val - min_val).

Definition volume_threshold : R := 0.35.

(** [compute_reward(revenue, margin, volume, weights, ranges)]. *)
Definition compute_reward (revenue margin volume : R) (weights : weights)
    (revenue_range margin_range volume_range : R * R) : R :=
  let norm_revenue := normalize revenue (fst revenue_range) (snd revenue_range) in
  let norm_margin := normalize margin (fst margin_range) (snd margin_range) in
  let raw_volume := normalize volume (fst volume_range) (snd volume_range) in
  let norm_volume :=
    if Rle_dec volume_threshold raw_volume then 1
    else raw_volume / volume_threshold in
  w_revenue weights * norm_revenue + w_margin weights * norm_margin
  + w_volume weights * norm_volume.

(** [compute_price_change_penalty(prev_multiplier, current_multiplier,
    penalty_weight)]. *)
Definition compute_price_change_penalty
    (prev_multiplier current_multiplier penalty_weight : R) : R :=
  if Rle_dec prev_multiplier 0 then 0
  else
    let change_magnitude :=
      Rabs (current_multiplier - prev_multiplier) / prev_multiplier in
    penalty_weight * change_magnitude.

End Reward.

(** ** environment/state_encoder.py *)
Module StateEncoder.

(** A retail data row.  [qty] and [unit_price] are read with [r['...']] by
    the constructor, so every dataset row has them; the other keys may be
    absent ([None]) and are read with [.get]. *)
Record row := mk_row {
  qty : R; unit_price : R; comp_1 : option R; month : option Z;
  lag_price : option R; inventory_level : option R;
  demand_forecast : option R; freight_price : option R }.

(** The dictionary returned by [encode_discrete]. *)
Record discrete_state := mk_discrete {
  demandBin : nat; competitorPriceBin : nat; seasonBin : nat;
  lagPriceBin : nat; inventoryBin : nat; forecastBin : nat }.

(** The attributes set by [StateEncoder.__init__]. *)
Record encoder := mk_encoder {
  demand_bins : nat; competitor_bins : nat; lag_bins : nat;
  inventory_bins : nat; forecast_bins : nat;
  demand_thresholds : list R; comp_thresholds : list R;
  lag_thresholds : list R; inventory_thresholds : list R;
  forecast_thresholds : list R;
  has_extended_state : bool;
  qty_min : R; qty_max : R; price_min : R; price_max : R;
  comp_min : R; comp_max : R; lag_min : R; lag_max : R;
  inv_min : R; inv_max : R; forecast_min : R; forecast_max : R;
  base_price : R; base_cost : R; base_qty : R }.

Local Notation "'let*' x := a 'in' b" :=
  (match a with Some x => b | None => None end)
  (at level 200, x name, a at level 100, b at level 200).

(** [int((i / num_bins) * len(sorted_vals))], computed exactly. *)
Definition quantile_index (i num_bins n : nat) : nat :=
  Z.to_nat (Qfloor (inject_Z (Z.of_nat i) / inject_Z (Z.of_nat num_bins)
                    * inject_Z (Z.of_nat n))%Q).

Fixpoint map_opt {A B} (f : A -> option B) (l : list A) : option (list B) :=
  match l with
  | [] => Some []
  | x :: t => let* y := f x in let* ys := map_opt f t in Some (y :: ys)
  end.

(** [_quantile_bins(values, num_bins)]: [sorted_vals[idx]] raises an
    [IndexError] ([None]) when [idx] is out of range. *)
Definition _quantile_bins (values : list R) (num_bins : nat) : option (list R) :=
  let sorted_vals := sort values in
  map_opt (fun i => nth_error sorted_vals
                      (quantile_index i num_bins (length sorted_vals)))
          (seq 1 (num_bins - 1)).

(** [_digitize(value, thresholds)]. *)
Fixpoint _digitize (value : R) (thresholds : list R) : nat :=
  match thresholds with
  | [] => 0
  | t :: ts => if Rlt_dec value t then 0 else S (_digitize value ts)
  end.

(** [_normalize(value, min_val, max_val)]. *)
Definition _normalize (value min_val max_val : R) : R :=
  if Req_dec_T max_val min_val then 0
  else (value - min_val) / (max_val - min_val).

Definition min_max (l : list R) : option (R * R) :=
  match list_min l, list_max l with
  | Some a, Some b => Some (a, b)
  | _, _ => None
  end.

(** [StateEncoder.__init__(rows, demand_bins, ..., forecast_bins)]; [None]
    when a numpy reduction or an index raises (empty [rows]). *)
Definition make_encoder (rows : list row)
    (demand_bins competitor_bins lag_bins inventory_bins forecast_bins : nat)
    : option encoder :=
  let qtys := map qty rows in
  let prices := map unit_price rows in
  let comps := map (fun r => get (comp_1 r) 0) rows in
  let lags := map (fun r => get (lag_price r) 0) rows in
  let inventories := map (fun r => get (inventory_level r) 0) rows in
  let forecasts := map (fun r => get (demand_forecast r) 0) rows in
  let costs := map (fun r => get (freight_price r) 0) rows in
  let* demand_thresholds := _quantile_bins qtys demand_bins in
  let comp_valid := positives comps in
  let lag_valid := positives lags in
  let* comp_thresholds :=
    _quantile_bins (match comp_valid with [] => [0; 1] | _ => comp_valid end)
                   competitor_bins in
  let* lag_thresholds :=
    _quantile_bins (match lag_valid with [] => [0; 1] | _ => lag_valid end)
                   lag_bins in
  let inv_valid := positives inventories in
  let forecast_valid := positives forecasts in
  let has_extended_state :=
    (if Rlt_dec (INR (length rows) * 0.1) (INR (length inv_valid))
     then true else false)
    && (if Rlt_dec (INR (length rows) * 0.1) (INR (length forecast_valid))
        then true else false) in
  let* inventory_thresholds :=
    if has_extended_state then _quantile_bins inv_valid inventory_bins
    else Some [0] in
  let* forecast_thresholds :=
    if has_extended_state then _quantile_bins forecast_valid forecast_bins
    else Some [0] in
  let* qty_range := min_max qtys in
  let* price_range := min_max prices in
  let* comp_range :=
    match comp_valid with [] => Some (0, 1) | _ => min_max comp_valid end in
  let* lag_range :=
    match lag_valid with [] => Some (0, 1) | _ => min_max lag_valid end in
  let* inv_range :=
    if has_extended_state then min_max inv_valid else Some (0, 1) in
  let* forecast_range :=
    if has_extended_state then min_max forecast_valid else Some (0, 1) in
  Some {| demand_bins := demand_bins; competitor_bins := competitor_bins;
          lag_bins := lag_bins; inventory_bins := inventory_bins;
          forecast_bins := forecast_bins;
          demand_thresholds := demand_thresholds;
          comp_thresholds := comp_thresholds;
          lag_thresholds := lag_thresholds;
          inventory_thresholds := inventory_thresholds;
          forecast_thresholds := forecast_thresholds;
          has_extended_state := has_extended_state;
          qty_min := fst qty_range; qty_max := snd qty_range;
          price_min := fst price_range; price_max := snd price_range;
          comp_min := fst comp_range; comp_max := snd comp_range;
          lag_min := fst lag_range; lag_max := snd lag_range;
          inv_min := fst inv_range; inv_max := snd inv_range;
          forecast_min := fst forecast_range;
          forecast_max := snd forecast_range;
          base_price := mean prices; base_cost := mean costs;
          base_qty := mean qtys |}.

(** [row.get('month', 1)]. *)
Definition row_month (r : row) : Z :=
  match month r with Some m => m | None => 1%Z end.

(** [encode_discrete(row)]. *)
Definition encode_discrete (enc : encoder) (r : row) : discrete_state :=
  let m := row_month r in
  let season_bin :=
    if ((m <=? 2) || (m =? 12))%Z then 0%nat
    else if (m <=? 5)%Z then 1%nat
    else if (m <=? 8)%Z then 2%nat
    else 3%nat in
  {| demandBin := _digitize (qty r) (demand_thresholds enc);
     competitorPriceBin := _digitize (get (comp_1 r) 0) (comp_thresholds enc);
     seasonBin := season_bin;
     lagPriceBin := _digitize (get (lag_price r) 0) (lag_thresholds enc);
     inventoryBin :=
       if has_extended_state enc
       then _digitize (get (inventory_level r) 0) (inventory_thresholds enc)
       else 0%nat;
     forecastBin :=
       if has_extended_state enc
       then _digitize (get (demand_forecast r) 0) (forecast_thresholds enc)
       else 0%nat |}.

(** [encode_continuous(row)]: the 9 features, in the order of the array. *)
Definition encode_continuous (enc : encoder) (r : row) : list R :=
  let m := IZR (row_month r) in
  let season_sin := sin (2 * PI * m / 12) in
  let season_cos := cos (2 * PI * m / 12) in
  let demand_norm := _normalize (qty r) (qty_min enc) (qty_max enc) in
  let comp_norm :=
    _normalize (get (comp_1 r) (base_price enc)) (comp_min enc) (comp_max enc) in
  let lag_norm :=
    _normalize (get (lag_price r) (base_price enc)) (lag_min enc) (lag_max enc) in
  let inv_norm :=
    if has_extended_state enc
    then _normalize (get (inventory_level r) 0) (inv_min enc) (inv_max enc)
    else 0.5 in
  let forecast_norm :=
    if has_extended_state enc
    then _normalize (get (demand_forecast r) (base_qty enc))
                    (forecast_min enc) (forecast_max enc)
    else 0.5 in
  let price := unit_price r in
  let cost := get (freight_price r) (base_cost enc) in
  let margin_potential := _normalize (price - cost) 0 (base_price enc) in
  let price_ratio := _normalize price (price_min enc) (price_max enc) in
  [demand_norm; comp_norm; season_sin; season_cos; lag_norm; inv_norm;
   forecast_norm; margin_potential; price_ratio].

(** [discrete_to_continuous(discrete_state)]; [None] is the [IndexError]
    of [season_to_month[...]]. *)
Definition discrete_to_continuous (enc : encoder) (ds : discrete_state)
    : option (list R) :=
  let demand_norm := (INR (demandBin ds) + 0.5) / INR (demand_bins enc) in
  let comp_norm :=
    (INR (competitorPriceBin ds) + 0.5) / INR (competitor_bins enc) in
  let* m := nth_error [1; 4; 7; 10] (seasonBin ds) in
  let season_sin := sin (2 * PI * m / 12) in
  let season_cos := cos (2 * PI * m / 12) in
  let lag_norm := (INR (lagPriceBin ds) + 0.5) / INR (lag_bins enc) in
  let inv_norm :=
    if has_extended_state enc
    then (INR (inventoryBin ds) + 0.5) / INR (inventory_bins enc) else 0.5 in
  let forecast_norm :=
    if has_extended_state enc
    then (INR (forecastBin ds) + 0.5) / INR (forecast_bins enc) else 0.5 in
  Some [demand_norm; comp_norm; season_sin; season_cos; lag_norm; inv_norm;
        forecast_norm; 0.5; 0.5].

End StateEncoder.

(** ** environment/pricing_env.py *)
Module Environment.
Import StateEncoder.

(** The configuration attributes of [PricingEnvironment]; the optional
    demand model is never used by [_predict_demand] and is left out. *)
Record environment := mk_env {
  rows : list row;
  weights : Reward.weights;
  action_multipliers : list R;
  price_change_penalty : R;
  encoder : StateEncoder.encoder;
  elasticity : R;
  revenue_range : R * R;
  margin_range : R * R;
  volume_range : R * R }.

(** The episode attributes mutated by [reset] and [step]. *)
Record env_state := mk_state { current_idx : nat; last_action : Z }.

(** The [info] dictionary of a step. *)
Record info := mk_info { revenue : R; margin : R; volume : R; price : R }.

(** The tuple [(next_state, reward, done, info)] returned by [step]. *)
Record step_result := mk_result {
  next_state : list R; reward : R; done : bool; step_info : info }.

(** [PricingEnvironment.__init__(rows, weights, action_multipliers,
    price_change_penalty)]: the object and its initial episode attributes. *)
Definition make_environment (rows : list row) (weights : Reward.weights)
    (action_multipliers : list R) (price_change_penalty : R)
    : option (environment * env_state) :=
  match make_encoder rows 3 3 3 3 3 with
  | None => None
  | Some enc =>
    let bp := base_price enc in
    let bc := base_cost enc in
    let bq := base_qty enc in
    Some ({| rows := rows; weights := weights;
             action_multipliers := action_multipliers;
             price_change_penalty := price_change_penalty;
             encoder := enc; elasticity := 0.7;
             revenue_range := (bp * 0.95 * bq * 0.6, bp * 1.30 * bq * 1.1);
             margin_range := ((bp * 0.95 - bc) * bq * 0.6,
                              (bp * 1.30 - bc) * bq * 1.1);
             volume_range := (bq * 0.3, bq * 1.2) |},
          {| current_idx := 0; last_action := (-1)%Z |})
  end.

(** [reset()], [i] being the value drawn by [np.random.randint]. *)
Definition reset (env : environment) (i : nat) : option (env_state * list R) :=
  match nth_error (rows env) i with
  | None => None
  | Some r => Some ({| current_idx := i; last_action := (-1)%Z |},
                    encode_continuous (encoder env) r)
  end.

(** [_get_effective_elasticity(discrete_state)].  The bin counts are those
    of the encoder built by [__init__] (3), so [bins - 1] is never 0. *)
Definition _get_effective_elasticity (env : environment) (ds : discrete_state)
    : R :=
  let enc := encoder env in
  let e := elasticity env in
  let demand_factor :=
    1.8 - (INR (demandBin ds) / (INR (demand_bins enc) - 1)) * 1.2 in
  let comp_factor :=
    1.6 - (INR (competitorPriceBin ds) / (INR (competitor_bins enc) - 1)) * 0.8 in
  let season_factor :=
    if Nat.eqb (seasonBin ds) 2 then 0.7
    else if Nat.eqb (seasonBin ds) 0 then 1.3 else 1.0 in
  let e := e * (demand_factor * comp_factor * season_factor) in
  let e :=
    if has_extended_state enc then
      let inventory_factor :=
        0.7 + (INR (inventoryBin ds) / (INR (inventory_bins enc) - 1)) * 0.6 in
      let forecast_factor :=
        1.2 - (INR (forecastBin ds) / (INR (forecast_bins enc) - 1)) * 0.4 in
      e * (inventory_factor * forecast_factor)
    else e in
  clip e 0.05 4.0.

(** [self.base_price or 1.0]. *)
Definition price_denominator (bp : R) : R :=
  if Req_dec_T bp 0 then 1 else bp.

(** [_predict_demand(row, price, discrete_state)]. *)
Definition _predict_demand (env : environment) (r : row) (price : R)
    (ds : discrete_state) : R :=
  let enc := encoder env in
  let effective_elasticity := _get_effective_elasticity env ds in
  let price_change_ratio :=
    (price - base_price enc) / price_denominator (base_price enc) in
  let base_q :=
    if has_extended_state enc && (if Rlt_dec 0 (get (demand_forecast r) 0)
                                  then true else false)
    then get (demand_forecast r) 0
    else qty r in
  let predicted_qty := base_q * exp (- effective_elasticity * price_change_ratio) in
  Rmax 1.0 predicted_qty.

(** The multiplier of the previous action, read by the stability penalty:
    [action_multipliers[last_action]] when [last_action >= 0]. *)
Definition prev_multiplier (env : environment) (st : env_state)
    : option (option R) :=
  if (0 <=? last_action st)%Z then
    match np_index (action_multipliers env) (last_action st) with
    | Some m => Some (Some m)
    | None => None
    end
  else Some None.

(** [if self.last_action >= 0: reward -= penalty]; [None] is the
    [IndexError] of the multiplier lookup. *)
Definition apply_penalty (env : environment) (st : env_state)
    (multiplier reward : R) : option R :=
  match prev_multiplier env st with
  | None => None
  | Some None => Some reward
  | Some (Some prev) =>
    Some (reward - Reward.compute_price_change_penalty
                     prev multiplier (price_change_penalty env))
  end.

(** The base reward of a step, before the stability penalty. *)
Definition base_reward (env : environment) (revenue margin volume_sold : R) : R :=
  Reward.compute_reward revenue margin volume_sold (weights env)
    (revenue_range env) (margin_range env) (volume_range env).

(** The real-data branch of [step(action)]. *)
Definition real_step (env : environment) (st : env_state) (action : Z)
    : option (env_state * step_result) :=
  let enc := encoder env in
  match nth_error (rows env) (current_idx st) with
  | None => None
  | Some r =>
    let discrete_state := encode_discrete enc r in
    match np_index (action_multipliers env) action with
    | None => None
    | Some multiplier =>
      let price := base_price enc * multiplier in
      let predicted_qty := _predict_demand env r price discrete_state in
      let revenue := price * predicted_qty in
      let margin := (price - base_cost enc) * predicted_qty in
      let volume_sold := predicted_qty in
      let reward := base_reward env revenue margin volume_sold in
      match apply_penalty env st multiplier reward with
      | None => None
      | Some reward =>
        let st' := {| last_action := action;
                      current_idx := ((current_idx st + 1)
                                      mod length (rows env))%nat |} in
        match nth_error (rows env) (current_idx st') with
        | None => None
        | Some r' =>
          Some (st', {| next_state := encode_continuous enc r';
                        reward := reward; done := false;
                        step_info := {| revenue := revenue; margin := margin;
                                        volume := volume_sold;
                                        price := price |} |})
        end
      end
    end
  end.

(** The values drawn by the [np.random] calls of [_synthetic_step]:
    five [randint] bins and one [random()] in [0, 1). *)
Record synthetic_draw := mk_draw {
  draw_demand : nat; draw_competitor : nat; draw_season : nat;
  draw_lag : nat; draw_inventory : nat; draw_forecast : nat;
  draw_noise : R }.

(** [_synthetic_step(action)].  It reads but never assigns [self]. *)
Definition _synthetic_step (env : environment) (st : env_state) (action : Z)
    (d : synthetic_draw) : option step_result :=
  let enc := encoder env in
  let discrete_state :=
    {| demandBin := draw_demand d; competitorPriceBin := draw_competitor d;
       seasonBin := draw_season d; lagPriceBin := draw_lag d;
       inventoryBin := if has_extended_state enc then draw_inventory d else 0%nat;
       forecastBin := if has_extended_state enc then draw_forecast d else 0%nat |} in
  match discrete_to_continuous enc discrete_state with
  | None => None
  | Some next_state =>
    match np_index (action_multipliers env) action with
    | None => None
    | Some multiplier =>
      let price := base_price enc * multiplier in
      let effective_elasticity := _get_effective_elasticity env discrete_state in
      let price_change_ratio :=
        (price - base_price enc) / price_denominator (base_price enc) in
      let demand_scale :=
        0.6 + (INR (demandBin discrete_state) / (INR (demand_bins enc) - 1)) * 0.5 in
      let base_q := base_qty enc * demand_scale in
      let noise := 0.9 + draw_noise d * 0.2 in
      let predicted_qty :=
        Rmax 1.0 (base_q * exp (- effective_elasticity * price_change_ratio)
                  * noise) in
      let revenue := price * predicted_qty in
      let margin := (price - base_cost enc) * predicted_qty in
      let volume_sold := predicted_qty in
      let reward := base_reward env revenue margin volume_sold in
      match apply_penalty env st multiplier reward with
      | None => None
      | Some reward =>
        Some {| next_state := next_state; reward := reward; done := false;
                step_info := {| revenue := revenue; margin := margin;
                                volume := volume_sold; price := price |} |}
      end
    end
  end.

(** [step(action, use_synthetic)]: the new episode attributes and the
    returned tuple. *)
Definition step (env : environment) (st : env_state) (action : Z)
    (use_synthetic : bool) (d : synthetic_draw)
    : option (env_state * step_result) :=
  if use_synthetic then
    match _synthetic_step env st action d with
    | None => None
    | Some res => Some (st, res)
    end
  else real_step env st action.

End Environment.

(** ** models/replay_buffer.py *)
Module ReplayBuffer.

(** One slot of the five parallel arrays [states], [actions], [rewards],
    [next_states], [dones]. *)
Record transition := mk_transition {
  t_state : list R; t_action : Z; t_reward : R; t_next_state : list R;
  t_done : R }.

Definition zero_transition (state_dim : nat) : transition :=
  {| t_state := repeat 0 state_dim; t_action := 0%Z; t_reward := 0;
     t_next_state := repeat 0 state_dim; t_done := 0 |}.

(** The attributes of [ReplayBuffer]; [slots] zips the five transition
    arrays. *)
Record buffer := mk_buffer {
  capacity : nat; state_dim : nat; use_per : bool;
  alpha : R; beta : R; beta_start : R; beta_end : R; beta_frames : Z;
  slots : list transition; priorities : list R; max_priority : R;
  position : nat; size : nat; frame_count : Z }.

(** [ReplayBuffer.__init__(capacity, state_dim, use_per, alpha, beta_start,
    beta_end, beta_frames)]. *)
Definition make_buffer (capacity state_dim : nat) (use_per : bool)
    (alpha beta_start beta_end : R) (beta_frames : Z) : buffer :=
  {| capacity := capacity; state_dim := state_dim; use_per := use_per;
     alpha := alpha; beta := beta_start; beta_start := beta_start;
     beta_end := beta_end; beta_frames := beta_frames;
     slots := repeat (zero_transition state_dim) capacity;
     priorities := repeat 1 capacity; max_priority := 1;
     position := 0; size := 0; frame_count := 0%Z |}.

(** [add(state, action, reward, next_state, done)]: [self.states[position]]
    raises an [IndexError] when [position >= capacity]. *)
Definition add (b : buffer) (t : transition) : buffer * result unit :=
  if Nat.ltb (position b) (capacity b) then
    ({| capacity := capacity b; state_dim := state_dim b; use_per := use_per b;
        alpha := alpha b; beta := beta b; beta_start := beta_start b;
        beta_end := beta_end b; beta_frames := beta_frames b;
        slots := set_nth (slots b) (position b) t;
        priorities :=
          if use_per b then set_nth (priorities b) (position b) (max_priority b)
          else priorities b;
        max_priority := max_priority b;
        position := Nat.modulo (position b + 1) (capacity b);
        size := Nat.min (size b + 1) (capacity b);
        frame_count := frame_count b |}, Ok tt)
  else (b, Err IndexError).

(** Sum tolerance of [np.random.choice] (square root of the machine epsilon
    of the dtype of [p]). *)
Definition choice_atol : R := 0.0003.

Definition count_pos (l : list R) : nat :=
  length (filter (fun x => if Rlt_dec 0 x then true else false) l).

(** The argument checks of [np.random.choice(pop, size=bs, replace=False,
    p=p)]; [false] is a [ValueError]. *)
Definition choice_ok (pop : nat) (bs : Z) (p : option (list R)) : bool :=
  if (Nat.eqb pop 0 && negb (bs =? 0))%Z%bool then false
  else
    let p_ok :=
      match p with
      | None => true
      | Some ps =>
        forallb (fun x => if Rlt_dec x 0 then false else true) ps
        && (if Rle_dec (Rabs (sum_list ps - 1)) choice_atol then true else false)
      end in
    if negb p_ok then false
    else if (Z.of_nat pop <? bs)%Z then false
    else if match p with
            | Some ps => (Z.of_nat (count_pos ps) <? bs)%Z
            | None => false end then false
    else if (bs <? 0)%Z then false
    else true.

(** A draw of [np.random.choice(pop, size=bs, replace=False)]: [bs]
    distinct indices below [pop]. *)
Definition choice_draw (pop : nat) (bs : Z) (draw : list nat) : Prop :=
  length draw = Z.to_nat bs /\ NoDup draw /\ Forall (fun i => (i < pop)%nat) draw.

(** The tuple returned by [sample]. *)
Record batch := mk_batch {
  batch_transitions : list transition; batch_indices : list nat;
  batch_weights : list R }.

(** [sample(batch_size)], [draw] being the indices returned by
    [np.random.choice].  The returned buffer carries the attributes after
    the call, also when it raises. *)
Definition sample (b : buffer) (batch_size : Z) (draw : list nat)
    : buffer * result batch :=
  if (Z.of_nat (size b) <? batch_size)%Z then (b, Err ValueError)
  else
    let probabilities :=
      if use_per b then
        let prs := map (fun p => Rpower p (alpha b)) (firstn (size b) (priorities b)) in
        Some (map (fun x => x / sum_list prs) prs)
      else None in
    if negb (choice_ok (size b) batch_size probabilities) then (b, Err ValueError)
    else
      let indices := draw in
      let weights :=
        match probabilities with
        | Some ps =>
          let ws := map (fun i => Rpower (INR (size b) * nth i ps 0) (- beta b))
                        indices in
          match list_max ws with
          | None => Err ValueError
          | Some m => Ok (map (fun w => w / m) ws)
          end
        | None => Ok (repeat 1 (Z.to_nat batch_size))
        end in
      match weights with
      | Err e => (b, Err e)
      | Ok weights =>
        let fc := (frame_count b + 1)%Z in
        let b1 := {| capacity := capacity b; state_dim := state_dim b;
                     use_per := use_per b; alpha := alpha b; beta := beta b;
                     beta_start := beta_start b; beta_end := beta_end b;
                     beta_frames := beta_frames b; slots := slots b;
                     priorities := priorities b; max_priority := max_priority b;
                     position := position b; size := size b;
                     frame_count := fc |} in
        if (beta_frames b =? 0)%Z then (b1, Err ZeroDivisionError)
        else
          let progress := Rmin 1 (IZR fc / IZR (beta_frames b)) in
          ({| capacity := capacity b; state_dim := state_dim b;
              use_per := use_per b; alpha := alpha b;
              beta := beta_start b + (beta_end b - beta_start b) * progress;
              beta_start := beta_start b; beta_end := beta_end b;
              beta_frames := beta_frames b; slots := slots b;
              priorities := priorities b; max_priority := max_priority b;
              position := position b; size := size b; frame_count := fc |},
           Ok {| batch_transitions :=
                   map (fun i => nth i (slots b) (zero_transition (state_dim b)))
                       indices;
                 batch_indices := indices; batch_weights := weights |})
      end.

(** [self.priorities[indices] = priorities]: pairwise, or broadcast from a
    single value; [None] is numpy's shape-mismatch [ValueError]. *)
Definition assign_priorities (prs : list R) (indices : list nat) (vals : list R)
    : option (list R) :=
  let pairs :=
    if Nat.eqb (length vals) (length indices) then Some (combine indices vals)
    else match vals with
         | [v] => Some (combine indices (repeat v (length indices)))
         | _ => None
         end in
  match pairs with
  | None => None
  | Some ps => Some (fold_left (fun acc iv => set_nth acc (fst iv) (snd iv)) ps prs)
  end.

(** [update_priorities(indices, td_errors)]. *)
Definition update_priorities (b : buffer) (indices : list nat) (td_errors : list R)
    : buffer * result unit :=
  if negb (use_per b) then (b, Ok tt)
  else
    let prs := map (fun e => Rpower (Rabs e + 1e-6) (alpha b)) td_errors in
    if negb (forallb (fun i => Nat.ltb i (capacity b)) indices)
    then (b, Err IndexError)
    else
      match assign_priorities (priorities b) indices prs with
      | None => (b, Err ValueError)
      | Some new_prs =>
        let b1 m := {| capacity := capacity b; state_dim := state_dim b;
                       use_per := use_per b; alpha := alpha b; beta := beta b;
                       beta_start := beta_start b; beta_end := beta_end b;
                       beta_frames := beta_frames b; slots := slots b;
                       priorities := new_prs; max_priority := m;
                       position := position b; size := size b;
                       frame_count := frame_count b |} in
        match list_max prs with
        | None => (b1 (max_priority b), Err ValueError)
        | Some m => (b1 (Rmax (max_priority b) m), Ok tt)
        end
      end.

(** [len(buffer)]. *)
Definition len (b : buffer) : nat := size b.

(** A call on the buffer. *)
Inductive op :=
| OpAdd (t : transition)
| OpSample (batch_size : Z) (draw : list nat)
| OpUpdate (indices : list nat) (td_errors : list R).

(** The buffer after a call, whether it returned or raised. *)
Definition exec_op (b : buffer) (o : op) : buffer :=
  match o with
  | OpAdd t => fst (add b t)
  | OpSample bs d => fst (sample b bs d)
  | OpUpdate idx tds => fst (update_priorities b idx tds)
  end.

Fixpoint run (b : buffer) (ops : list op) : buffer :=
  match ops with [] => b | o :: rest => run (exec_op b o) rest end.

(** A sequence of [add] calls, stopping at the first exception. *)
Fixpoint add_all (b : buffer) (ts : list transition) : option buffer :=
  match ts with
  | [] => Some b
  | t :: rest =>
    match add b t with
    | (b', Ok _) => add_all b' rest
    | (_, Err _) => None
    end
  end.

End ReplayBuffer.

(** ** Readings of the spec's quantile thresholds *)
Module QuantileSpec.

(** ["the ⌈(i/num_bins)·N⌉-th position of the sorted array"] read with
    positions counted from 1 (the nearest-rank percentile). *)
Definition thresholds_rank (sorted : list R) (num_bins : nat) : list R :=
  map (fun i => nth (Z.to_nat (Qceiling (inject_Z (Z.of_nat i)
                                / inject_Z (Z.of_nat num_bins)
                                * inject_Z (Z.of_nat (length sorted)))%Q - 1))
                    sorted 0)
      (seq 1 (num_bins - 1)).

(** The same sentence read with positions counted from 0 (array index). *)
Definition thresholds_index (sorted : list R) (num_bins : nat) : list R :=
  map (fun i => nth (Z.to_nat (Qceiling (inject_Z (Z.of_nat i)
                                / inject_Z (Z.of_nat num_bins)
                                * inject_Z (Z.of_nat (length sorted)))%Q))
                    sorted 0)
      (seq 1 (num_bins - 1)).

End QuantileSpec.

(** ** StateEncoder.get_total_discrete_states and
    scripts/export_policy.py *)
Module ExportPolicy.
Import StateEncoder.

(** [StateEncoder.get_total_discrete_states()]. *)
Definition get_total_discrete_states (enc : encoder) : nat :=
  if has_extended_state enc
  then (demand_bins enc * competitor_bins enc * 4 * lag_bins enc
        * inventory_bins enc * forecast_bins enc)%nat
  else (demand_bins enc * competitor_bins enc * 4 * lag_bins enc)%nat.

(** [generate_discrete_states(...)]: the six nested loops, outermost first. *)
Definition generate_discrete_states (demand_bins competitor_bins season_bins
    lag_bins inventory_bins forecast_bins : nat) (has_extended_state : bool)
    : list discrete_state :=
  let inv_range := if has_extended_state then seq 0 inventory_bins else [0%nat] in
  let fcst_range := if has_extended_state then seq 0 forecast_bins else [0%nat] in
  flat_map (fun demand_bin =>
  flat_map (fun comp_bin =>
  flat_map (fun season_bin =>
  flat_map (fun lag_bin =>
  flat_map (fun inv_bin =>
  map (fun fcst_bin =>
         {| demandBin := demand_bin; competitorPriceBin := comp_bin;
            seasonBin := season_bin; lagPriceBin := lag_bin;
            inventoryBin := inv_bin; forecastBin := fcst_bin |})
      fcst_range)
      inv_range)
      (seq 0 lag_bins))
      (seq 0 season_bins))
      (seq 0 competitor_bins))
      (seq 0 demand_bins).

End ExportPolicy.

(** ** training/trainer.py: epsilon schedule and early stopping *)
Module Trainer.

(** [self.epsilon = max(self.epsilon_end, self.epsilon * self.epsilon_decay)],
    run at the end of every episode. *)
Definition decay_epsilon (epsilon epsilon_end epsilon_decay : R) : R :=
  Rmax epsilon_end (epsilon * epsilon_decay).

(** [self.epsilon] after [n] episodes, starting from [epsilon_start]. *)
Fixpoint epsilon_after (epsilon_start epsilon_end epsilon_decay : R) (n : nat) : R :=
  match n with
  | O => epsilon_start
  | S k => decay_epsilon (epsilon_after epsilon_start epsilon_end epsilon_decay k)
                         epsilon_end epsilon_decay
  end.

(** The ['epsilon'] entry written by [_get_training_metrics] for the
    episode at 0-based index [i]. *)
Definition metrics_epsilon (epsilon_end epsilon_decay : R) (i : nat) : R :=
  epsilon_end + (1.0 - epsilon_end) * epsilon_decay ^ i.

(** The early-stopping attributes: [reward_window] (a deque with
    [maxlen = window_size]), [best_avg_reward] ([None] is [-inf]) and
    [episodes_without_improvement]. *)
Record stopper := mk_stopper {
  reward_window : list R; best_avg_reward : option R;
  episodes_without_improvement : nat }.

Definition initial_stopper : stopper := mk_stopper [] None 0.

(** [deque.append] on a deque with [maxlen]: the oldest items are dropped. *)
Definition deque_append (maxlen : nat) (w : list R) (x : R) : list R :=
  let w' := w ++ [x] in skipn (length w' - maxlen) w'.

(** The early-stopping block at the end of an episode of [train()]; the
    boolean is the [break].  The mean of an empty deque is [nan], which
    compares false. *)
Definition end_of_episode (window_size patience : nat) (min_delta : R)
    (s : stopper) (episode_reward : R) : stopper * bool :=
  let w := deque_append window_size (reward_window s) episode_reward in
  if Nat.eqb (length w) window_size then
    let improved :=
      match w with
      | [] => false
      | _ => match best_avg_reward s with
             | None => true
             | Some b => if Rlt_dec (b + min_delta) (mean w) then true else false
             end
      end in
    let s' := if improved then mk_stopper w (Some (mean w)) 0
              else mk_stopper w (best_avg_reward s)
                              (S (episodes_without_improvement s)) in
    (s', Nat.leb patience (episodes_without_improvement s'))
  else (mk_stopper w (best_avg_reward s) (episodes_without_improvement s), false).

(** The number of episodes [train()] runs, given the reward of each of the
    [episodes] episodes it may run. *)
Fixpoint episodes_run (window_size patience : nat) (min_delta : R)
    (s : stopper) (episode_rewards : list R) : nat :=
  match episode_rewards with
  | [] => 0
  | r :: rest =>
    let (s', stop) := end_of_episode window_size patience min_delta s r in
    if stop then 1 else S (episodes_run window_size patience min_delta s' rest)
  end.

End Trainer.

(** ** training/trainer.py: the step loop of an episode of [train()] *)
Module Episode.
Import Environment.

(** [for step in range(steps_per_episode)] on the environment: each step
    takes the action returned by [select_action], the [use_synthetic] coin
    and the synthetic draws; the replay buffer and the training steps do not
    touch the environment.  The result is the episode attributes and
    [episode_reward]; [None] is an exception raised by [step]. *)
Fixpoint run_episode (env : environment) (st : env_state) (episode_reward : R)
    (steps : list (Z * bool * synthetic_draw)) : option (env_state * R) :=
  match steps with
  | [] => Some (st, episode_reward)
  | (action, use_synthetic, d) :: rest =>
    match step env st action use_synthetic d with
    | None => None
    | Some (st', res) => run_episode env st' (episode_reward + reward res) rest
    end
  end.

End Episode.

(** * Properties *)

Module RewardFacts.
Import Reward.

(** Claim C1: the reward is the weighted sum of the min-max normalised
    revenue and margin and of the volume credit, which is exactly 1 when the
    normalised volume is at least 0.35 and the normalised volume divided by
    0.35 below that. *)
Theorem compute_reward_formula :
  forall (revenue margin volume : R) (w : weights) (rr mr vr : R * R),
    let norm_revenue := normalize revenue (fst rr) (snd rr) in
    let norm_margin := normalize margin (fst mr) (snd mr) in
    let nv := normalize volume (fst vr) (snd vr) in
    (0.35 <= nv ->
     compute_reward revenue margin volume w rr mr vr =
     w_revenue w * norm_revenue + w_margin w * norm_margin + w_volume w * 1.0)
    /\ (nv < 0.35 ->
        compute_reward revenue margin volume w rr mr vr =
        w_revenue w * norm_revenue + w_margin w * norm_margin
        + w_volume w * (nv / 0.35)).
Proof.
  intros revenue margin volume w rr mr vr norm_revenue norm_margin nv.
  unfold compute_reward, volume_threshold; fold norm_revenue norm_margin nv.
  split; intro H; destruct (Rle_dec 0.35 nv); try reflexivity; lra.
Qed.

(** Claim C3: no change of multiplier costs nothing, a non-positive
    previous multiplier costs nothing, and otherwise the penalty is the
    weight times the relative change of the multiplier. *)
Theorem price_change_penalty_spec :
  (forall m w, compute_price_change_penalty m m w = 0)
  /\ (forall prev cur w, prev <= 0 -> compute_price_change_penalty prev cur w = 0)
  /\ (forall prev cur w, 0 < prev ->
      compute_price_change_penalty prev cur w = w * (Rabs (cur - prev) / prev)).
Proof.
  unfold compute_price_change_penalty; repeat split.
  - intros m w; destruct (Rle_dec m 0); [reflexivity|].
    replace (m - m) with 0 by ring; rewrite Rabs_R0; unfold Rdiv; ring.
  - intros prev cur w H; destruct (Rle_dec prev 0); [reflexivity|contradiction].
  - intros prev cur w H; destruct (Rle_dec prev 0); [lra|reflexivity].
Qed.

End RewardFacts.

(** Settles the real comparisons of a goal on concrete values. *)
Ltac decide_reals :=
  repeat (simpl;
          match goal with
          | |- context [Rle_dec ?a ?b] => destruct (Rle_dec a b); try lra
          | |- context [Rlt_dec ?a ?b] => destruct (Rlt_dec a b); try lra
          | |- context [Req_dec_T ?a ?b] => destruct (Req_dec_T a b); try lra
          end).

Module EncoderFacts.
Import StateEncoder.

Lemma insert_sorted_length x l : length (insert_sorted x l) = S (length l).
Proof.
  induction l as [|y t IH]; simpl; [reflexivity|].
  destruct (Rle_dec x y); simpl; [reflexivity|now rewrite IH].
Qed.

Lemma sort_length l : length (sort l) = length l.
Proof.
  induction l as [|x t IH]; simpl; [reflexivity|].
  now rewrite insert_sorted_length, IH.
Qed.

Lemma quantile_index_div (i k n : nat) :
  (0 < k)%nat -> quantile_index i k n = Nat.div (i * n) k.
Proof.
  intros Hk. unfold quantile_index.
  assert (Hp : exists p, Z.of_nat k = Zpos p) by (exists (Pos.of_nat k); lia).
  destruct Hp as [p Hp]. rewrite Hp.
  unfold Qdiv, inject_Z, Qinv, Qmult, Qfloor; simpl.
  rewrite Pos.mul_1_r, Z.mul_1_r, <- Hp, <- Nat2Z.inj_mul, <- Nat2Z.inj_div,
    Nat2Z.id.
  reflexivity.
Qed.

Lemma map_opt_some {A B} (f : A -> option B) (g : A -> B) (l : list A) :
  (forall x, In x l -> f x = Some (g x)) -> map_opt f l = Some (map g l).
Proof.
  induction l as [|x t IH]; intros H; simpl; [reflexivity|].
  rewrite (H x (or_introl eq_refl)), IH; [reflexivity|].
  intros y Hy; apply H; now right.
Qed.

Lemma nth_map_lt (g : nat -> R) (l : list nat) (n : nat) (d : R) :
  (n < length l)%nat -> nth n (map g l) d = g (nth n l 0%nat).
Proof.
  intros H. rewrite nth_indep with (d' := g 0%nat) by (now rewrite length_map).
  apply map_nth.
Qed.

(** [_quantile_bins] on a non-empty array: the [num_bins - 1] thresholds
    are the sorted values at the 0-based indices [⌊i·N/num_bins⌋]. *)
Lemma quantile_bins_floor (values : list R) (num_bins : nat) :
  values <> [] ->
  _quantile_bins values num_bins =
  Some (map (fun i => nth (Nat.div (i * length values) num_bins) (sort values) 0)
            (seq 1 (num_bins - 1))).
Proof.
  intros Hne. unfold _quantile_bins.
  apply map_opt_some. intros i Hi. apply in_seq in Hi.
  rewrite sort_length, quantile_index_div by lia.
  apply nth_error_nth'. rewrite sort_length.
  destruct values as [|v vs]; [congruence|].
  apply Nat.Div0.div_lt_upper_bound; simpl length; nia.
Qed.

(** Claim C4 (counterexample): neither reading of the ceiling formula
    describes [_quantile_bins].  On the sorted array [[1; 2]] with 2 bins the
    code returns [[2]] where the 1-based reading gives [[1]]; on [[1; 2; 3; 4]]
    with 3 bins the code returns [[2; 3]] where the 0-based reading gives
    [[3; 4]]. *)
Lemma quantile_bins_not_ceiling :
  _quantile_bins [1; 2] 2 = Some [2]
  /\ QuantileSpec.thresholds_rank [1; 2] 2 = [1]
  /\ _quantile_bins [1; 2; 3; 4] 3 = Some [2; 3]
  /\ QuantileSpec.thresholds_index [1; 2; 3; 4] 3 = [3; 4]
  /\ _quantile_bins [1; 2] 2 <> Some (QuantileSpec.thresholds_rank [1; 2] 2)
  /\ _quantile_bins [1; 2; 3; 4] 3
     <> Some (QuantileSpec.thresholds_index [1; 2; 3; 4] 3).
Proof.
  assert (S1 : sort [1; 2] = [1; 2]) by (decide_reals; reflexivity).
  assert (S2 : sort [1; 2; 3; 4] = [1; 2; 3; 4]) by (decide_reals; reflexivity).
  assert (Q1 : _quantile_bins [1; 2] 2 = Some [2]).
  { unfold _quantile_bins. rewrite S1. reflexivity. }
  assert (Q2 : _quantile_bins [1; 2; 3; 4] 3 = Some [2; 3]).
  { unfold _quantile_bins. rewrite S2. reflexivity. }
  assert (R1 : QuantileSpec.thresholds_rank [1; 2] 2 = [1]) by reflexivity.
  assert (R2 : QuantileSpec.thresholds_index [1; 2; 3; 4] 3 = [3; 4])
    by reflexivity.
  rewrite Q1, Q2, R1, R2.
  repeat split; intro H; injection H; intros; lra.
Qed.

(** Claim C4 (amended): for every non-empty array of length [N] and every
    [num_bins >= 2], [_quantile_bins] returns [num_bins - 1] thresholds and
    threshold [i] (for [i = 1 .. num_bins - 1], stored at 0-based slot
    [i - 1]) is the sorted value at 0-based index [⌊(i/num_bins)·N⌋]. *)
Theorem quantile_bins_spec (values : list R) (num_bins : nat) :
  values <> [] -> (2 <= num_bins)%nat ->
  exists thresholds,
    _quantile_bins values num_bins = Some thresholds
    /\ length thresholds = (num_bins - 1)%nat
    /\ forall i, (1 <= i <= num_bins - 1)%nat ->
       nth (i - 1) thresholds 0
       = nth (quantile_index i num_bins (length values)) (sort values) 0
       /\ quantile_index i num_bins (length values)
          = Nat.div (i * length values) num_bins
       /\ (quantile_index i num_bins (length values) < length values)%nat.
Proof.
  intros Hne Hk. rewrite (quantile_bins_floor values num_bins Hne).
  eexists; split; [reflexivity|]. split.
  - now rewrite length_map, length_seq.
  - intros i Hi. rewrite quantile_index_div by lia.
    split; [|split; [reflexivity|]].
    + assert (Hlt : (i - 1 < length (seq 1 (num_bins - 1)))%nat)
        by (rewrite length_seq; lia).
      rewrite nth_map_lt, seq_nth by lia. f_equal. f_equal. f_equal. lia.
    + destruct values as [|v vs]; [congruence|].
      apply Nat.Div0.div_lt_upper_bound; simpl length; nia.
Qed.

Lemma fold_min_le (t : list R) (acc : R) :
  fold_left Rmin t acc <= acc /\ forall x, In x t -> fold_left Rmin t acc <= x.
Proof.
  revert acc; induction t as [|y t IH]; intros acc; simpl.
  - split; [lra|tauto].
  - destruct (IH (Rmin acc y)) as [H1 H2]. split.
    + pose proof (Rmin_l acc y); lra.
    + intros x [<-|Hx]; [pose proof (Rmin_r acc y); lra|auto].
Qed.

Lemma fold_max_ge (t : list R) (acc : R) :
  acc <= fold_left Rmax t acc /\ forall x, In x t -> x <= fold_left Rmax t acc.
Proof.
  revert acc; induction t as [|y t IH]; intros acc; simpl.
  - split; [lra|tauto].
  - destruct (IH (Rmax acc y)) as [H1 H2]. split.
    + pose proof (Rmax_l acc y); lra.
    + intros x [<-|Hx]; [pose proof (Rmax_r acc y); lra|auto].
Qed.

Lemma min_max_bounds (l : list R) (a b x : R) :
  min_max l = Some (a, b) -> In x l -> a <= x <= b.
Proof.
  unfold min_max, list_min, list_max. destruct l as [|y t]; [discriminate|].
  intros H; injection H as <- <-.
  destruct (fold_min_le t y) as [Hm1 Hm2], (fold_max_ge t y) as [HM1 HM2].
  intros [<-|Hx]; [lra|]. split; auto.
Qed.

Lemma normalize_unit (x a b : R) :
  a <= x <= b -> 0 <= _normalize x a b <= 1.
Proof.
  intros H. unfold _normalize. destruct (Req_dec_T b a); [lra|].
  assert (Hd : 0 < b - a) by lra. split.
  - apply Rmult_le_pos; [lra|]. apply Rlt_le, Rinv_0_lt_compat; lra.
  - apply (Rmult_le_reg_r (b - a)); [lra|]. unfold Rdiv.
    rewrite Rmult_assoc, Rinv_l by lra. lra.
Qed.

Lemma in_positives (x : R) (l : list R) :
  In x l -> 0 < x -> In x (positives l).
Proof.
  intros Hin Hx. unfold positives. apply filter_In. split; [assumption|].
  destruct (Rlt_dec 0 x); [reflexivity|contradiction].
Qed.

(** The ranges stored by [__init__] are the min and max of the columns
    they are fit on. *)
Lemma make_encoder_ranges rows db cb lb ib fb enc :
  make_encoder rows db cb lb ib fb = Some enc ->
  min_max (map qty rows) = Some (qty_min enc, qty_max enc)
  /\ min_max (map unit_price rows) = Some (price_min enc, price_max enc)
  /\ (positives (map (fun r => get (comp_1 r) 0) rows) <> [] ->
      min_max (positives (map (fun r => get (comp_1 r) 0) rows))
      = Some (comp_min enc, comp_max enc))
  /\ (positives (map (fun r => get (lag_price r) 0) rows) <> [] ->
      min_max (positives (map (fun r => get (lag_price r) 0) rows))
      = Some (lag_min enc, lag_max enc))
  /\ (has_extended_state enc = true ->
      min_max (positives (map (fun r => get (inventory_level r) 0) rows))
      = Some (inv_min enc, inv_max enc)
      /\ min_max (positives (map (fun r => get (demand_forecast r) 0) rows))
         = Some (forecast_min enc, forecast_max enc)).
Proof.
  intros H. unfold make_encoder in H. cbv zeta in H.
  repeat (match type of H with
          | context [match ?x with Some _ => _ | None => _ end] =>
            let E := fresh "E" in destruct x eqn:E; [|discriminate H]
          end).
  injection H as <-. simpl.
  repeat match goal with p : (R * R)%type |- _ => destruct p end.
  simpl. repeat split; try assumption;
    try match goal with
        | E : match ?l with [] => _ | _ :: _ => _ end = _ |- ?l <> [] -> _ =>
          let Hne := fresh in intros Hne; destruct l; [contradiction|exact E]
        end;
    match goal with Hx : _ = true |- _ => rewrite Hx in *; assumption end.
Qed.

(** A dataset row without the optional columns. *)
Definition row_no_comp : row :=
  {| qty := 1; unit_price := 2; comp_1 := None; month := None;
     lag_price := None; inventory_level := None; demand_forecast := None;
     freight_price := None |}.

(** Claim C7 (counterexample): for the one-row dataset [[row_no_comp]]
    (no competitor column), the encoder falls back to the range [(0, 1)]
    for competitor prices while [encode_continuous] reads the missing
    competitor price as [base_price = 2], so the competitor component of
    the row's vector is 2, outside [0, 1]. *)
Lemma encode_continuous_comp_out_of_range :
  exists enc, make_encoder [row_no_comp] 3 3 3 3 3 = Some enc
  /\ In row_no_comp [row_no_comp]
  /\ nth 1 (encode_continuous enc row_no_comp) 0 = 2
  /\ ~ (0 <= nth 1 (encode_continuous enc row_no_comp) 0 <= 1).
Proof.
  unfold make_encoder, _quantile_bins. cbv zeta. decide_reals.
  eexists; split; [reflexivity|]. split; [now left|].
  unfold encode_continuous, _normalize, mean, sum_list; simpl.
  decide_reals.
Qed.

Lemma in_column (f : row -> R) (rows : list row) (r : row) (c : R) :
  In r rows -> f r = c -> 0 < c -> In c (positives (map f rows)).
Proof.
  intros Hin Hf Hc. apply in_positives; [|assumption].
  rewrite <- Hf. now apply in_map.
Qed.

Lemma positive_column_range (f : row -> R) (rows : list row) (r : row)
    (c lo hi : R) :
  In r rows -> f r = c -> 0 < c ->
  (positives (map f rows) <> [] -> min_max (positives (map f rows)) = Some (lo, hi)) ->
  0 <= _normalize c lo hi <= 1.
Proof.
  intros Hin Hf Hc Hmm. pose proof (in_column f rows r c Hin Hf Hc) as Hp.
  apply normalize_unit. apply (min_max_bounds (positives (map f rows)));
    [|assumption].
  apply Hmm. intros E; rewrite E in Hp; destruct Hp.
Qed.

(** Claim C7 (amended): for every row of the dataset an encoder was built
    from, [encode_continuous] returns 9 numbers; the season sine and cosine
    lie in [[-1, 1]]; demand and price ratio lie in [[0, 1]]; the
    competitor and lag components lie in [[0, 1]] when the row carries a
    positive value for that field; inventory and forecast are 0.5 without
    extended state and lie in [[0, 1]] with it when the row carries a
    positive value.  Margin potential is not bounded. *)
Theorem encode_continuous_bounds rows db cb lb ib fb enc r :
  make_encoder rows db cb lb ib fb = Some enc -> In r rows ->
  let v := encode_continuous enc r in
  length v = 9%nat
  /\ 0 <= nth 0 v 0 <= 1
  /\ -1 <= nth 2 v 0 <= 1
  /\ -1 <= nth 3 v 0 <= 1
  /\ 0 <= nth 8 v 0 <= 1
  /\ (forall c, comp_1 r = Some c -> 0 < c -> 0 <= nth 1 v 0 <= 1)
  /\ (forall c, lag_price r = Some c -> 0 < c -> 0 <= nth 4 v 0 <= 1)
  /\ (has_extended_state enc = false -> nth 5 v 0 = 0.5 /\ nth 6 v 0 = 0.5)
  /\ (forall c, inventory_level r = Some c -> 0 < c -> 0 <= nth 5 v 0 <= 1)
  /\ (forall c, demand_forecast r = Some c -> 0 < c -> 0 <= nth 6 v 0 <= 1).
Proof.
  intros H Hin v.
  destruct (make_encoder_ranges rows db cb lb ib fb enc H)
    as [Hq [Hp [Hc [Hl Hx]]]].
  unfold v, encode_continuous; cbv zeta; simpl nth.
  split; [reflexivity|].
  split; [apply normalize_unit, (min_max_bounds _ _ _ _ Hq), in_map, Hin|].
  split; [apply SIN_bound|]. split; [apply COS_bound|].
  split; [apply normalize_unit, (min_max_bounds _ _ _ _ Hp), in_map, Hin|].
  split.
  { intros c E Hc0. rewrite E; simpl.
    apply (positive_column_range (fun r => get (comp_1 r) 0) rows r);
      [assumption|now rewrite E|assumption|assumption]. }
  split.
  { intros c E Hc0. rewrite E; simpl.
    apply (positive_column_range (fun r => get (lag_price r) 0) rows r);
      [assumption|now rewrite E|assumption|assumption]. }
  split; [intros E; rewrite E; split; reflexivity|].
  split.
  - intros c E Hc0. destruct (has_extended_state enc) eqn:Ex; [|lra].
    destruct (Hx eq_refl) as [Hi _]. rewrite E; simpl.
    apply (positive_column_range (fun r => get (inventory_level r) 0) rows r);
      [assumption|now rewrite E|assumption|intros _; exact Hi].
  - intros c E Hc0. destruct (has_extended_state enc) eqn:Ex; [|lra].
    destruct (Hx eq_refl) as [_ Hf]. rewrite E; simpl.
    apply (positive_column_range (fun r => get (demand_forecast r) 0) rows r);
      [assumption|now rewrite E|assumption|intros _; exact Hf].
Qed.

Lemma make_encoder_row_no_comp :
  exists enc, make_encoder [row_no_comp] 3 3 3 3 3 = Some enc.
Proof.
  unfold make_encoder, _quantile_bins. cbv zeta. decide_reals.
  eexists; reflexivity.
Qed.

Lemma encode_continuous_bounds_witness :
  exists enc, make_encoder [row_no_comp] 3 3 3 3 3 = Some enc
  /\ In row_no_comp [row_no_comp]
  /\ length (encode_continuous enc row_no_comp) = 9%nat
  /\ -1 <= nth 2 (encode_continuous enc row_no_comp) 0 <= 1.
Proof.
  destruct make_encoder_row_no_comp as [enc H].
  assert (Hin : In row_no_comp [row_no_comp]) by (now left).
  destruct (encode_continuous_bounds [row_no_comp] 3 3 3 3 3 enc row_no_comp H Hin)
    as [H1 [_ [H2 _]]].
  exists enc; split; [exact H|]. split; [exact Hin|]. split; assumption.
Defined.

Lemma quantile_bins_spec_witness :
  ([1; 2; 3] <> [] /\ (2 <= 3)%nat)
  /\ exists thresholds, _quantile_bins [1; 2; 3] 3 = Some thresholds
                       /\ length thresholds = 2%nat.
Proof.
  split; [split; [discriminate|lia]|].
  destruct (quantile_bins_spec [1; 2; 3] 3 ltac:(discriminate) ltac:(lia))
    as [th [H1 [H2 _]]].
  exists th; split; assumption.
Defined.

End EncoderFacts.

Module EnvironmentFacts.
Import StateEncoder Environment.

Lemma np_index_valid {A} (l : list A) (a : Z) :
  (0 <= a < Z.of_nat (length l))%Z ->
  exists m, np_index l a = Some m /\ nth_error l (Z.to_nat a) = Some m.
Proof.
  intros H. unfold np_index. destruct (0 <=? a)%Z eqn:E; [|lia].
  destruct (nth_error l (Z.to_nat a)) as [m|] eqn:Em.
  - exists m; split; reflexivity.
  - apply nth_error_None in Em; lia.
Qed.

Lemma apply_penalty_some env st multiplier reward :
  prev_multiplier env st <> None ->
  exists reward', apply_penalty env st multiplier reward = Some reward'.
Proof.
  unfold apply_penalty. destruct (prev_multiplier env st) as [[p|]|];
    intros H; [eexists; reflexivity|eexists; reflexivity|congruence].
Qed.

Lemma prev_multiplier_initial env :
  prev_multiplier env {| current_idx := 0; last_action := (-1)%Z |} = Some None.
Proof. reflexivity. Qed.

(** A real-data step from a valid cursor, with an action that indexes the
    multipliers and a previous action whose multiplier can be read,
    returns. *)
Lemma real_step_some env st a r m :
  nth_error (rows env) (current_idx st) = Some r ->
  np_index (action_multipliers env) a = Some m ->
  prev_multiplier env st <> None ->
  exists st' res,
    real_step env st a = Some (st', res)
    /\ st' = {| current_idx := ((current_idx st + 1) mod length (rows env))%nat;
                last_action := a |}.
Proof.
  intros Hr Hm Hp. unfold real_step. rewrite Hr, Hm.
  match goal with |- context [apply_penalty env st m ?rw] =>
    destruct (apply_penalty_some env st m rw Hp) as [rw' Hrw]; rewrite Hrw end.
  cbn [current_idx].
  assert (Hlen : (0 < length (rows env))%nat).
  { destruct (rows env); [destruct (current_idx st); discriminate|simpl; lia]. }
  destruct (nth_error (rows env) ((current_idx st + 1) mod length (rows env)))
    eqn:E.
  - do 2 eexists; split; reflexivity.
  - apply nth_error_None in E.
    pose proof (Nat.mod_upper_bound (current_idx st + 1) (length (rows env))); lia.
Qed.

(** Inversion of a returned real-data step. *)
Lemma real_step_inv env st a st' res :
  real_step env st a = Some (st', res) ->
  exists r m,
    nth_error (rows env) (current_idx st) = Some r
    /\ np_index (action_multipliers env) a = Some m
    /\ last_action st' = a
    /\ current_idx st' = ((current_idx st + 1) mod length (rows env))%nat
    /\ price (step_info res) = base_price (encoder env) * m
    /\ volume (step_info res)
       = _predict_demand env r (base_price (encoder env) * m)
           (encode_discrete (encoder env) r)
    /\ revenue (step_info res) = price (step_info res) * volume (step_info res)
    /\ margin (step_info res)
       = (price (step_info res) - base_cost (encoder env)) * volume (step_info res)
    /\ apply_penalty env st m
         (base_reward env (revenue (step_info res)) (margin (step_info res))
            (volume (step_info res))) = Some (reward res).
Proof.
  unfold real_step. intros H.
  destruct (nth_error (rows env) (current_idx st)) as [r|] eqn:Er; [|discriminate].
  destruct (np_index (action_multipliers env) a) as [m|] eqn:Em; [|discriminate].
  match type of H with context [apply_penalty env st m ?rw] =>
    destruct (apply_penalty env st m rw) as [rw'|] eqn:Ep; [|discriminate] end.
  cbn [current_idx] in H.
  destruct (nth_error (rows env) ((current_idx st + 1) mod length (rows env)))
    as [r'|]; [|discriminate].
  injection H as <- <-. exists r, m. simpl. repeat split; assumption.
Qed.

Lemma ratio_denominator (bp m : R) :
  (bp * m - bp) / price_denominator bp = (bp * m - bp) / bp.
Proof.
  unfold price_denominator. destruct (Req_dec_T bp 0) as [->|]; [|reflexivity].
  unfold Rdiv. rewrite Rinv_0. ring.
Qed.

Lemma predict_demand_ge_1 env r price ds : 1 <= _predict_demand env r price ds.
Proof.
  unfold _predict_demand.
  match goal with |- _ <= Rmax 1.0 ?x => pose proof (Rmax_l 1.0 x) end. lra.
Qed.

(** Claim C2: a real-data step with action [a] on the row under the cursor
    prices at [base_price * action_multipliers[a]], predicts the quantity
    [max(1, q * exp(-e * (price - base_price) / base_price))] with [e] the
    effective elasticity of the row's bins and [q] the row's positive demand
    forecast in extended mode and its own quantity otherwise, and reports
    revenue [price * volume] and margin [(price - base_cost) * volume] with
    [volume >= 1]. *)
Theorem real_step_metrics env st a d st' res r m :
  step env st a false d = Some (st', res) ->
  nth_error (rows env) (current_idx st) = Some r ->
  (0 <= a)%Z -> nth_error (action_multipliers env) (Z.to_nat a) = Some m ->
  let enc := encoder env in
  let bp := base_price enc in
  let p := bp * m in
  let e := _get_effective_elasticity env (encode_discrete enc r) in
  let info := step_info res in
  price info = p
  /\ (forall f, has_extended_state enc = true -> demand_forecast r = Some f ->
      0 < f -> volume info = Rmax 1 (f * exp (- e * ((p - bp) / bp))))
  /\ (has_extended_state enc = false \/ get (demand_forecast r) 0 <= 0 ->
      volume info = Rmax 1 (qty r * exp (- e * ((p - bp) / bp))))
  /\ revenue info = p * volume info
  /\ margin info = (p - base_cost enc) * volume info
  /\ 1 <= volume info.
Proof.
  intros H Hr Ha Hm enc bp p e info. simpl in H.
  destruct (real_step_inv env st a st' res H)
    as [r' [m' [Hr' [Hm' [_ [_ [Hp [Hv [Hrev [Hmar _]]]]]]]]]].
  rewrite Hr in Hr'; injection Hr' as <-.
  unfold np_index in Hm'. destruct (0 <=? a)%Z eqn:Ea; [|lia].
  rewrite Hm in Hm'; injection Hm' as <-.
  fold enc bp in Hp, Hv. fold p in Hp, Hv. fold info in Hp, Hv, Hrev, Hmar.
  split; [exact Hp|]. split; [|split; [|split; [|split]]].
  - intros f Hx Hf Hf0. rewrite Hv. unfold _predict_demand. fold enc bp e.
    rewrite Hx, Hf. simpl. destruct (Rlt_dec 0 f); [|contradiction].
    unfold p; rewrite ratio_denominator. replace 1.0 with 1 by lra. reflexivity.
  - intros Hc. rewrite Hv. unfold _predict_demand. fold enc bp e.
    destruct (has_extended_state enc) eqn:Hx; simpl.
    + destruct (Rlt_dec 0 (get (demand_forecast r) 0)); [|].
      * destruct Hc; [discriminate|lra].
      * unfold p; rewrite ratio_denominator; replace 1.0 with 1 by lra;
        reflexivity.
    + unfold p; rewrite ratio_denominator; replace 1.0 with 1 by lra;
      reflexivity.
  - rewrite Hrev, Hp; reflexivity.
  - rewrite Hmar, Hp; reflexivity.
  - rewrite Hv; apply predict_demand_ge_1.
Qed.

(** Claim C8: a synthetic step returns the episode attributes unchanged, so
    [last_action] and the previous multiplier read by later penalties are
    unchanged, while a real-data step that returns sets [last_action] to the
    action taken. *)
Theorem synthetic_step_keeps_last_action env st a d st' res :
  (step env st a true d = Some (st', res) ->
   st' = st /\ last_action st' = last_action st
   /\ prev_multiplier env st' = prev_multiplier env st)
  /\ (step env st a false d = Some (st', res) -> last_action st' = a).
Proof.
  split.
  - simpl. destruct (_synthetic_step env st a d); [|discriminate].
    intros H; injection H as <- _. repeat split.
  - simpl. intros H.
    destruct (real_step_inv env st a st' res H) as [_ [_ [_ [_ [Ha _]]]]].
    exact Ha.
Qed.

Lemma make_environment_inv rows w mults pen E st :
  make_environment rows w mults pen = Some (E, st) ->
  Environment.rows E = rows /\ action_multipliers E = mults
  /\ st = {| current_idx := 0; last_action := (-1)%Z |} /\ rows <> [].
Proof.
  unfold make_environment. destruct (make_encoder rows 3 3 3 3 3) eqn:Ee;
    [|discriminate].
  intros H; injection H as <- <-. repeat split.
  intros ->. discriminate Ee.
Qed.

(** Claim C9: [__init__] sets the cursor to row 0 and [last_action] to -1,
    so a real-data step on a freshly built environment, with any valid
    action, returns (no state-machine error is raised), steps from row 0
    and is charged no stability penalty. *)
Theorem fresh_environment_step rows w mults pen E st :
  make_environment rows w mults pen = Some (E, st) ->
  st = {| current_idx := 0; last_action := (-1)%Z |}
  /\ forall a d, (0 <= a < Z.of_nat (length mults))%Z ->
     exists r0 m st' res,
       hd_error rows = Some r0
       /\ nth_error mults (Z.to_nat a) = Some m
       /\ step E st a false d = Some (st', res)
       /\ st' = {| current_idx := (1 mod length rows)%nat; last_action := a |}
       /\ price (step_info res) = base_price (encoder E) * m
       /\ volume (step_info res)
          = _predict_demand E r0 (price (step_info res))
              (encode_discrete (encoder E) r0)
       /\ reward res = base_reward E (revenue (step_info res))
                         (margin (step_info res)) (volume (step_info res)).
Proof.
  intros H. destruct (make_environment_inv rows w mults pen E st H)
    as [Hrows [Hm [Hst Hne]]].
  split; [exact Hst|]. intros a d Ha. subst st.
  destruct rows as [|r0 rest]; [contradiction|].
  rewrite <- Hm in Ha. destruct (np_index_valid _ a Ha) as [m [Hnp Hnth]].
  assert (Hr : nth_error (Environment.rows E) (current_idx {| current_idx := 0;
                 last_action := (-1)%Z |}) = Some r0) by (now rewrite Hrows).
  destruct (real_step_some E _ a r0 m Hr Hnp) as [st' [res [Hs Hst']]];
    [rewrite prev_multiplier_initial; discriminate|].
  destruct (real_step_inv E _ a st' res Hs)
    as [r' [m' [Hr' [Hm' [_ [_ [Hp [Hv [_ [_ Hpen]]]]]]]]]].
  rewrite Hr in Hr'; injection Hr' as <-. rewrite Hnp in Hm'; injection Hm' as <-.
  exists r0, m, st', res. rewrite <- Hm.
  split; [reflexivity|]. split; [exact Hnth|]. split; [exact Hs|].
  split; [rewrite Hst', Hrows; reflexivity|]. split; [exact Hp|].
  split; [rewrite Hv, Hp; reflexivity|].
  unfold apply_penalty in Hpen. rewrite prev_multiplier_initial in Hpen.
  injection Hpen as <-. reflexivity.
Qed.

(** A one-row environment used to exercise the step theorems. *)
Definition weights0 : Reward.weights := Reward.mk_weights 0.4 0.4 0.2.
Definition draw0 : synthetic_draw := mk_draw 0 0 0 0 0 0 0.

Lemma make_environment_row_no_comp :
  exists E, make_environment [EncoderFacts.row_no_comp] weights0 [1] 0.15
            = Some (E, {| current_idx := 0; last_action := (-1)%Z |}).
Proof.
  unfold make_environment. destruct EncoderFacts.make_encoder_row_no_comp as [enc H].
  rewrite H. eexists; reflexivity.
Qed.

Lemma real_step_metrics_witness :
  exists E st' res,
    make_environment [EncoderFacts.row_no_comp] weights0 [1] 0.15
      = Some (E, {| current_idx := 0; last_action := (-1)%Z |})
    /\ step E {| current_idx := 0; last_action := (-1)%Z |} 0 false draw0
       = Some (st', res)
    /\ price (step_info res) = base_price (encoder E) * 1
    /\ 1 <= volume (step_info res).
Proof.
  destruct make_environment_row_no_comp as [E H].
  destruct (make_environment_inv _ _ _ _ E _ H) as [Hrows [Hm _]].
  assert (Hr : nth_error (Environment.rows E) 0 = Some EncoderFacts.row_no_comp)
    by (now rewrite Hrows).
  assert (Hnp : np_index (action_multipliers E) 0 = Some 1) by (now rewrite Hm).
  destruct (real_step_some E {| current_idx := 0; last_action := (-1)%Z |} 0
              EncoderFacts.row_no_comp 1 Hr Hnp) as [st' [res [Hs _]]];
    [rewrite prev_multiplier_initial; discriminate|].
  assert (Hn : nth_error (action_multipliers E) (Z.to_nat 0) = Some 1)
    by (now rewrite Hm).
  destruct (real_step_metrics E {| current_idx := 0; last_action := (-1)%Z |} 0
              draw0 st' res EncoderFacts.row_no_comp 1 Hs Hr ltac:(lia) Hn)
    as [Hp [_ [_ [_ [_ Hv]]]]].
  exists E, st', res. repeat split; assumption.
Defined.

Lemma fresh_environment_step_witness :
  exists E st,
    make_environment [EncoderFacts.row_no_comp] weights0 [1] 0.15 = Some (E, st)
    /\ st = {| current_idx := 0; last_action := (-1)%Z |}
    /\ exists st' res, step E st 0 false draw0 = Some (st', res).
Proof.
  destruct make_environment_row_no_comp as [E H].
  destruct (fresh_environment_step _ _ _ _ E _ H) as [Hst Hstep].
  destruct (Hstep 0%Z draw0 ltac:(simpl; lia))
    as [r0 [m [st' [res [_ [_ [Hs _]]]]]]].
  exists E, {| current_idx := 0; last_action := (-1)%Z |}.
  split; [exact H|]. split; [reflexivity|]. exists st', res; exact Hs.
Defined.

End EnvironmentFacts.

Module BufferFacts.
Import ReplayBuffer.

Lemma length_set_nth {A} (l : list A) i v : length (set_nth l i v) = length l.
Proof.
  revert i; induction l as [|x t IH]; intros [|i]; simpl; auto.
Qed.

Lemma nth_error_set_nth_eq {A} (l : list A) i v :
  (i < length l)%nat -> nth_error (set_nth l i v) i = Some v.
Proof.
  revert i; induction l as [|x t IH]; intros [|i] H; simpl in *; try lia; auto.
  apply IH; lia.
Qed.

Lemma nth_error_set_nth_neq {A} (l : list A) i j v :
  i <> j -> nth_error (set_nth l i v) j = nth_error l j.
Proof.
  revert i j; induction l as [|x t IH]; intros [|i] [|j] H; simpl; auto.
  congruence.
Qed.

(** The shape invariant of the buffer's arrays and counters. *)
Definition wf (b : buffer) : Prop :=
  length (slots b) = capacity b /\ length (priorities b) = capacity b
  /\ (size b <= capacity b)%nat
  /\ (0 < capacity b -> position b < capacity b)%nat.

Lemma wf_make_buffer C dim per al bs be bf :
  wf (make_buffer C dim per al bs be bf).
Proof.
  unfold wf, make_buffer; simpl. rewrite !repeat_length. repeat split; lia.
Qed.

Lemma add_ok (b : buffer) (t : transition) :
  (position b < capacity b)%nat ->
  add b t = ({| capacity := capacity b; state_dim := state_dim b;
                use_per := use_per b; alpha := alpha b; beta := beta b;
                beta_start := beta_start b; beta_end := beta_end b;
                beta_frames := beta_frames b;
                slots := set_nth (slots b) (position b) t;
                priorities :=
                  if use_per b
                  then set_nth (priorities b) (position b) (max_priority b)
                  else priorities b;
                max_priority := max_priority b;
                position := Nat.modulo (position b + 1) (capacity b);
                size := Nat.min (size b + 1) (capacity b);
                frame_count := frame_count b |}, Ok tt).
Proof.
  intros H. unfold add. destruct (Nat.ltb_spec (position b) (capacity b));
    [reflexivity|lia].
Qed.

Lemma wf_add b t b' r : wf b -> add b t = (b', r) -> wf b'.
Proof.
  unfold wf; intros [H1 [H2 [H3 H4]]] Ha. unfold add in Ha.
  destruct (Nat.ltb_spec (position b) (capacity b)).
  - injection Ha as <- _. simpl. rewrite !length_set_nth.
    repeat split; try lia.
    + destruct (use_per b); [rewrite length_set_nth|]; lia.
    + intros Hc. apply Nat.mod_upper_bound; lia.
  - injection Ha as <- _. repeat split; assumption.
Qed.

Lemma add_all_app b xs ys :
  add_all b (xs ++ ys) =
  match add_all b xs with Some b' => add_all b' ys | None => None end.
Proof.
  revert b; induction xs as [|x xs IH]; intros b; simpl; [reflexivity|].
  destruct (add b x) as [b' [[]|e]]; [apply IH|reflexivity].
Qed.

Lemma mod_neq_close (C k n : nat) :
  (0 < C)%nat -> (k < n)%nat -> (n - k < C)%nat -> k mod C <> n mod C.
Proof.
  intros HC Hkn Hd Heq.
  pose proof (Nat.div_mod_eq n C) as En. pose proof (Nat.div_mod_eq k C) as Ek.
  remember (n / C)%nat as qn. remember (k / C)%nat as qk.
  rewrite Heq in Ek.
  destruct (Nat.le_gt_cases qn qk); nia.
Qed.

(** After the adds of [ts] on a fresh buffer: the counters, and the last
    [capacity] transitions each in slot [k mod capacity]. *)
Lemma add_all_ring C dim per al bs be bf ts :
  (0 < C)%nat ->
  exists b', add_all (make_buffer C dim per al bs be bf) ts = Some b'
    /\ wf b' /\ capacity b' = C
    /\ position b' = (length ts mod C)%nat
    /\ size b' = Nat.min (length ts) C
    /\ forall k, (k < length ts)%nat -> (length ts - C <= k)%nat ->
       nth_error (slots b') (k mod C) = nth_error ts k.
Proof.
  intros HC. induction ts as [|t ts IH] using rev_ind.
  - exists (make_buffer C dim per al bs be bf). split; [reflexivity|].
    split; [apply wf_make_buffer|]. simpl. rewrite Nat.Div0.mod_0_l.
    repeat split; try lia.
  - destruct IH as [b [Hb [Hwf [Hcap [Hpos [Hsize Hslots]]]]]].
    assert (Hp : (position b < capacity b)%nat)
      by (destruct Hwf as [_ [_ [_ H4]]]; apply H4; lia).
    exists (fst (add b t)). rewrite add_all_app, Hb. simpl.
    rewrite (add_ok b t Hp). simpl. split; [reflexivity|].
    split; [apply (wf_add b t _ (Ok tt) Hwf (add_ok b t Hp))|].
    rewrite length_app. simpl length. destruct Hwf as [Hl1 _].
    split; [assumption|]. split.
    { rewrite Hpos, Hcap, Nat.Div0.add_mod_idemp_l. reflexivity. }
    split; [rewrite Hsize, Hcap; lia|].
    intros k Hk Hk2. rewrite Hpos.
    destruct (Nat.eq_dec k (length ts)) as [->|Hne].
    + rewrite nth_error_set_nth_eq by (rewrite Hl1, Hcap; apply Nat.mod_upper_bound; lia).
      rewrite nth_error_app2, Nat.sub_diag by lia. reflexivity.
    + rewrite nth_error_set_nth_neq.
      * rewrite nth_error_app1 by lia. apply Hslots; lia.
      * intros E; apply (mod_neq_close C k (length ts)); auto; lia.
Qed.

(** Claim C5: on a buffer of capacity [C > 0], after any sequence [ts] of
    adds the size never exceeds [C] and equals [C] once more than [C]
    transitions were added; the write position is the number of adds modulo
    [C]; the last [C] transitions are stored (transition [k] in slot
    [k mod C]), so the slot written next holds the oldest stored one; and
    with prioritisation every add gives its slot the current
    [max_priority]. *)
Theorem add_ring_buffer C dim per al bs be bf ts :
  (0 < C)%nat ->
  exists b', add_all (make_buffer C dim per al bs be bf) ts = Some b'
    /\ (len b' <= C)%nat
    /\ ((C < length ts)%nat -> len b' = C)
    /\ position b' = (length ts mod C)%nat
    /\ (forall k, (k < length ts)%nat -> (length ts - C <= k)%nat ->
        nth_error (slots b') (k mod C) = nth_error ts k)
    /\ ((C <= length ts)%nat ->
        nth_error (slots b') (position b') = nth_error ts (length ts - C))
    /\ (forall b t b'', wf b -> use_per b = true -> add b t = (b'', Ok tt) ->
        nth_error (priorities b'') (position b) = Some (max_priority b)
        /\ max_priority b'' = max_priority b).
Proof.
  intros HC.
  destruct (add_all_ring C dim per al bs be bf ts HC)
    as [b' [Hb [Hwf [Hcap [Hpos [Hsize Hslots]]]]]].
  exists b'. unfold len. split; [exact Hb|].
  split; [rewrite Hsize; lia|]. split; [intros; rewrite Hsize; lia|].
  split; [exact Hpos|]. split; [exact Hslots|]. split.
  - intros Hn. rewrite Hpos.
    replace (length ts mod C)%nat with ((length ts - C) mod C)%nat.
    + apply Hslots; lia.
    + replace (length ts) with (length ts - C + 1 * C)%nat at 2 by lia.
      now rewrite Nat.Div0.mod_add.
  - intros b t b'' [_ [Hl _]] Hper Ha. unfold add in Ha.
    destruct (Nat.ltb_spec (position b) (capacity b)); [|discriminate].
    injection Ha as <-. simpl. rewrite Hper. split; [|reflexivity].
    apply nth_error_set_nth_eq; lia.
Qed.

Lemma add_ring_buffer_witness :
  (0 < 2)%nat
  /\ exists b', add_all (make_buffer 2 1 true 0.6 0.4 1 100000)
                  [zero_transition 1; zero_transition 1; zero_transition 1]
                = Some b' /\ len b' = 2%nat.
Proof.
  split; [lia|].
  destruct (add_ring_buffer 2 1 true 0.6 0.4 1 100000
              [zero_transition 1; zero_transition 1; zero_transition 1]
              ltac:(lia)) as [b' [Hb [_ [Hlen _]]]].
  exists b'. split; [exact Hb|]. apply Hlen. simpl; lia.
Defined.

End BufferFacts.

Module SampleFacts.
Import ReplayBuffer.

Lemma rpower_pos x y : 0 < Rpower x y.
Proof. unfold Rpower; apply exp_pos. Qed.

Lemma rpower_1_l y : Rpower 1 y = 1.
Proof. unfold Rpower. rewrite ln_1, Rmult_0_r. apply exp_0. Qed.

Lemma rpower_lt_1 x y : 0 < x < 1 -> 0 < y -> Rpower x y < 1.
Proof.
  intros [Hx0 Hx1] Hy. unfold Rpower. rewrite <- exp_0. apply exp_increasing.
  assert (ln x < 0) by (rewrite <- ln_1; apply ln_increasing; lra).
  nra.
Qed.

Lemma sum_list_div l S : sum_list (map (fun x => x / S) l) = sum_list l / S.
Proof. induction l as [|a l IH]; simpl; [unfold Rdiv; ring|]. rewrite IH. unfold Rdiv; ring. Qed.

Lemma sum_list_nonneg l : Forall (fun x => 0 < x) l -> 0 <= sum_list l.
Proof. induction 1; simpl; lra. Qed.

Lemma sum_list_pos l : l <> [] -> Forall (fun x => 0 < x) l -> 0 < sum_list l.
Proof.
  destruct l as [|a l]; [congruence|]. intros _ H. inversion H; subst.
  pose proof (sum_list_nonneg l H3). simpl. lra.
Qed.

Lemma count_pos_all l : Forall (fun x => 0 < x) l -> count_pos l = length l.
Proof.
  unfold count_pos. induction 1; simpl; [reflexivity|].
  destruct (Rlt_dec 0 x); [simpl; lia|contradiction].
Qed.

Lemma forallb_nonneg l :
  Forall (fun x => 0 < x) l ->
  forallb (fun x => if Rlt_dec x 0 then false else true) l = true.
Proof.
  induction 1; simpl; [reflexivity|].
  destruct (Rlt_dec x 0); [lra|assumption].
Qed.

(** The argument checks of [np.random.choice] pass for a positive batch no
    larger than the population, with [p] a positive distribution over it. *)
Lemma choice_ok_true pop bs p :
  (1 <= bs)%Z -> (bs <= Z.of_nat pop)%Z ->
  match p with
  | None => True
  | Some ps => Forall (fun x => 0 < x) ps /\ length ps = pop /\ sum_list ps = 1
  end ->
  choice_ok pop bs p = true.
Proof.
  intros H1 H2 Hp. unfold choice_ok.
  destruct pop as [|n]; [simpl in H2; lia|]. simpl Nat.eqb. cbn [andb].
  destruct p as [ps|].
  - destruct Hp as [Hpos [Hlen Hsum]].
    rewrite forallb_nonneg by assumption. rewrite Hsum.
    replace (1 - 1) with 0 by ring. rewrite Rabs_R0.
    destruct (Rle_dec 0 choice_atol) as [_|Hn]; [|unfold choice_atol in Hn; lra].
    cbn [andb negb].
    replace (Z.of_nat (S n) <? bs)%Z with false by (symmetry; apply Z.ltb_ge; lia).
    rewrite count_pos_all, Hlen by assumption.
    replace (Z.of_nat (S n) <? bs)%Z with false by (symmetry; apply Z.ltb_ge; lia).
    replace (bs <? 0)%Z with false by (symmetry; apply Z.ltb_ge; lia).
    reflexivity.
  - cbn [negb].
    replace (Z.of_nat (S n) <? bs)%Z with false by (symmetry; apply Z.ltb_ge; lia).
    replace (bs <? 0)%Z with false by (symmetry; apply Z.ltb_ge; lia).
    reflexivity.
Qed.

Lemma per_probabilities_ok (b : buffer) :
  BufferFacts.wf b -> (1 <= size b)%nat ->
  let prs := map (fun p => Rpower p (alpha b)) (firstn (size b) (priorities b)) in
  Forall (fun x => 0 < x) (map (fun x => x / sum_list prs) prs)
  /\ length (map (fun x => x / sum_list prs) prs) = size b
  /\ sum_list (map (fun x => x / sum_list prs) prs) = 1.
Proof.
  intros [_ [Hl [Hs _]]] H1 prs.
  assert (Hpos : Forall (fun x => 0 < x) prs).
  { unfold prs. apply Forall_map, Forall_forall. intros; apply rpower_pos. }
  assert (Hlen : length prs = size b).
  { unfold prs. rewrite length_map, length_firstn, Hl. lia. }
  assert (HS : 0 < sum_list prs).
  { apply sum_list_pos; [|assumption]. intros E; rewrite E in Hlen; simpl in Hlen; lia. }
  split; [|split].
  - apply Forall_map. eapply Forall_impl; [|exact Hpos]. intros x Hx.
    apply Rdiv_lt_0_compat; assumption.
  - rewrite length_map; exact Hlen.
  - rewrite sum_list_div. field. lra.
Qed.

(** Claim C6 (amended): for a positive [batch_size] and [beta_frames <> 0],
    [sample] raises the explicit [ValueError] exactly when
    [size < batch_size], leaving the buffer unchanged; otherwise, for any
    draw of [np.random.choice] ([batch_size] distinct indices below
    [size]), it returns exactly [batch_size] transitions and weights, the
    transitions being the stored ones at the drawn indices, every index
    below [size]. *)
Theorem sample_spec (b : buffer) (batch_size : Z) (draw : list nat) :
  BufferFacts.wf b -> (1 <= batch_size)%Z -> beta_frames b <> 0%Z ->
  ((Z.of_nat (size b) < batch_size)%Z -> sample b batch_size draw = (b, Err ValueError))
  /\ ((batch_size <= Z.of_nat (size b))%Z -> choice_draw (size b) batch_size draw ->
      exists b' bt, sample b batch_size draw = (b', Ok bt)
        /\ length (batch_transitions bt) = Z.to_nat batch_size
        /\ length (batch_weights bt) = Z.to_nat batch_size
        /\ batch_transitions bt
           = map (fun i => nth i (slots b) (zero_transition (state_dim b))) draw
        /\ batch_indices bt = draw
        /\ Forall (fun i => (i < size b)%nat) (batch_indices bt)
        /\ size b' = size b).
Proof.
  intros Hwf H1 Hbf. split.
  - intros Hlt. unfold sample.
    replace (Z.of_nat (size b) <? batch_size)%Z with true
      by (symmetry; apply Z.ltb_lt; exact Hlt).
    reflexivity.
  - intros Hge [Hdl [_ Hdr]]. unfold sample.
    replace (Z.of_nat (size b) <? batch_size)%Z with false
      by (symmetry; apply Z.ltb_ge; exact Hge).
    assert (Hsz : (1 <= size b)%nat) by lia.
    destruct draw as [|i0 rest]; [simpl in Hdl; lia|].
    replace (beta_frames b =? 0)%Z with false by (symmetry; apply Z.eqb_neq; exact Hbf).
    destruct (use_per b) eqn:Hper.
    + destruct (per_probabilities_ok b Hwf Hsz) as [Hp1 [Hp2 Hp3]].
      rewrite choice_ok_true by (try assumption; repeat split; assumption).
      cbn [negb map list_max].
      eexists _, _. split; [reflexivity|]. cbn [batch_transitions batch_weights
        batch_indices size].
      cbn [length] in *; rewrite ?length_map; repeat split; try reflexivity; try assumption; lia.
    + rewrite choice_ok_true by (try assumption; exact I).
      cbn [negb].
      eexists _, _. split; [reflexivity|]. cbn [batch_transitions batch_weights
        batch_indices size].
      cbn [length] in *; rewrite ?length_map, ?repeat_length; repeat split; try reflexivity; try assumption; lia.
Qed.

(** Claim C6 (counterexample): with prioritisation, a buffer holding one
    transition and [batch_size = 0] has [size >= batch_size], yet [sample]
    raises a [ValueError]: [np.random.choice] draws no index and
    [weights.max()] is taken over an empty array. *)
Lemma sample_empty_batch_raises :
  let b := fst (add (make_buffer 2 1 true 0.6 0.4 1 100000) (zero_transition 1)) in
  size b = 1%nat /\ (0 <= Z.of_nat (size b))%Z /\ choice_draw (size b) 0 []
  /\ sample b 0 [] = (b, Err ValueError).
Proof.
  intros b. split; [reflexivity|]. split; [simpl; lia|].
  split; [repeat split; constructor|].
  unfold b, sample. cbn -[Rpower choice_ok]. rewrite rpower_1_l.
  unfold choice_ok, sum_list, count_pos, choice_atol. cbn -[Rdiv].
  replace (1 / (1 + 0) + 0 - 1) with 0 by field. rewrite Rabs_R0.
  decide_reals. destruct (negb _); reflexivity.
Qed.

Lemma wf_one_add :
  BufferFacts.wf (fst (add (make_buffer 2 1 true 0.6 0.4 1 100000) (zero_transition 1))).
Proof.
  apply (BufferFacts.wf_add (make_buffer 2 1 true 0.6 0.4 1 100000) (zero_transition 1)
           _ (snd (add (make_buffer 2 1 true 0.6 0.4 1 100000) (zero_transition 1)))).
  - apply BufferFacts.wf_make_buffer.
  - apply surjective_pairing.
Qed.

Lemma sample_spec_witness :
  let b := fst (add (make_buffer 2 1 true 0.6 0.4 1 100000) (zero_transition 1)) in
  BufferFacts.wf b /\ (1 <= 1)%Z /\ beta_frames b <> 0%Z
  /\ exists b' bt, sample b 1 [0%nat] = (b', Ok bt)
       /\ length (batch_transitions bt) = 1%nat /\ batch_indices bt = [0%nat].
Proof.
  intros b.
  assert (Hwf : BufferFacts.wf b) by apply wf_one_add.
  assert (Hbf : beta_frames b <> 0%Z) by (simpl; discriminate).
  split; [exact Hwf|]. split; [lia|]. split; [exact Hbf|].
  destruct (sample_spec b 1 [0%nat] Hwf ltac:(lia) Hbf) as [_ H].
  destruct H as [b' [bt [Hs [Hl [_ [_ [Hi _]]]]]]].
  - simpl; lia.
  - repeat split; simpl; repeat constructor; intros []; lia.
  - exists b', bt. split; [exact Hs|]. split; [exact Hl|exact Hi].
Defined.

End SampleFacts.

Module PriorityFacts.
Import ReplayBuffer.

Lemma sample_max_priority b bs d : max_priority (fst (sample b bs d)) = max_priority b.
Proof.
  unfold sample. destruct (_ <? _)%Z; [reflexivity|]. cbv zeta.
  destruct (negb _); [reflexivity|].
  destruct (use_per b).
  - destruct (list_max _); [|reflexivity].
    destruct (beta_frames b =? 0)%Z; reflexivity.
  - destruct (beta_frames b =? 0)%Z; reflexivity.
Qed.

Lemma exec_op_max_priority b o : max_priority b <= max_priority (exec_op b o).
Proof.
  destruct o as [t|bs d|idx tds]; simpl.
  - unfold add. destruct (Nat.ltb _ _); simpl; lra.
  - rewrite sample_max_priority. lra.
  - unfold update_priorities. destruct (negb (use_per b)); simpl; [lra|].
    destruct (negb (forallb _ _)); simpl; [lra|].
    destruct (assign_priorities _ _ _); simpl; [|lra].
    destruct (list_max _); simpl; [apply Rmax_l|lra].
Qed.

Definition t0 : transition := zero_transition 1.

Definition per_buffer : buffer := make_buffer 2 1 true 0.6 0.4 1 100000.

(** Claim C10: over every sequence of [add], [sample] and
    [update_priorities] calls (including calls that raise),
    [max_priority] never decreases.  In particular, after two adds to a
    prioritised buffer of capacity 2, [update_priorities([0, 1], [0, 0])]
    lowers both stored priorities to [p = (0 + 1e-6) ** 0.6 < 1] while
    [max_priority] stays 1, and the next add stores priority 1, strictly
    larger than every priority then stored. *)
Theorem max_priority_monotone :
  (forall b ops, max_priority b <= max_priority (run b ops))
  /\ exists p, p < 1
     /\ priorities (run per_buffer [OpAdd t0; OpAdd t0]) = [1; 1]
     /\ max_priority (run per_buffer [OpAdd t0; OpAdd t0]) = 1
     /\ priorities (run per_buffer [OpAdd t0; OpAdd t0; OpUpdate [0; 1]%nat [0; 0]])
        = [p; p]
     /\ max_priority (run per_buffer [OpAdd t0; OpAdd t0; OpUpdate [0; 1]%nat [0; 0]])
        = 1
     /\ priorities (run per_buffer
          [OpAdd t0; OpAdd t0; OpUpdate [0; 1]%nat [0; 0]; OpAdd t0]) = [1; p].
Proof.
  split.
  - intros b ops. revert b. induction ops as [|o ops IH]; intros b; simpl; [lra|].
    eapply Rle_trans; [apply exec_op_max_priority|apply IH].
  - exists (Rpower (Rabs 0 + 1e-6) 0.6).
    assert (Hp : Rpower (Rabs 0 + 1e-6) 0.6 < 1).
    { rewrite Rabs_R0. apply SampleFacts.rpower_lt_1; lra. }
    split; [exact Hp|].
    split; [reflexivity|]. split; [reflexivity|].
    split; [reflexivity|]. split.
    + simpl. rewrite Rmax_left; [reflexivity|].
      rewrite Rmax_left; lra.
    + simpl. rewrite (Rmax_left 1); [reflexivity|].
      rewrite Rmax_left; lra.
Qed.

End PriorityFacts.

Module RewardExtras.
Import Reward.

Lemma normalize_mono (v1 v2 a b : R) :
  a <= b -> v1 <= v2 -> normalize v1 a b <= normalize v2 a b.
Proof.
  intros Hab Hv. unfold normalize. destruct (Req_dec_T b a); [lra|].
  unfold Rdiv. apply Rmult_le_compat_r; [|lra].
  apply Rlt_le, Rinv_0_lt_compat; lra.
Qed.

Lemma normalize_in_unit (v a b : R) :
  a <= v <= b -> 0 <= normalize v a b <= 1.
Proof.
  intros H. unfold normalize. destruct (Req_dec_T b a); [lra|].
  assert (Hd : 0 < b - a) by lra. split.
  - apply Rmult_le_pos; [lra|]. apply Rlt_le, Rinv_0_lt_compat; lra.
  - apply (Rmult_le_reg_r (b - a)); [lra|]. unfold Rdiv.
    rewrite Rmult_assoc, Rinv_l by lra. lra.
Qed.

(** The volume credit of [compute_reward] as a function of the normalised
    volume. *)
Lemma volume_credit_mono (x y : R) :
  x <= y ->
  (if Rle_dec volume_threshold x then 1 else x / volume_threshold)
  <= (if Rle_dec volume_threshold y then 1 else y / volume_threshold).
Proof.
  unfold volume_threshold. intros H.
  destruct (Rle_dec 0.35 x), (Rle_dec 0.35 y); try lra.
Qed.

Lemma volume_credit_unit (x : R) :
  0 <= x <= 1 ->
  0 <= (if Rle_dec volume_threshold x then 1 else x / volume_threshold) <= 1.
Proof.
  unfold volume_threshold. intros H. destruct (Rle_dec 0.35 x); lra.
Qed.

(** [compute_reward] with non-negative weights and metrics inside their
    ranges lies between 0 and the sum of the weights. *)
Theorem compute_reward_bounds (revenue margin volume : R) (w : weights)
    (rr mr vr : R * R) :
  0 <= w_revenue w -> 0 <= w_margin w -> 0 <= w_volume w ->
  fst rr <= revenue <= snd rr -> fst mr <= margin <= snd mr ->
  fst vr <= volume <= snd vr ->
  0 <= compute_reward revenue margin volume w rr mr vr
    <= w_revenue w + w_margin w + w_volume w.
Proof.
  intros Hr Hm Hv Hrev Hmar Hvol. unfold compute_reward.
  pose proof (normalize_in_unit _ _ _ Hrev) as N1.
  pose proof (normalize_in_unit _ _ _ Hmar) as N2.
  pose proof (volume_credit_unit _ (normalize_in_unit _ _ _ Hvol)) as N3.
  split; nra.
Qed.

(** [compute_reward] with non-negative weights and ordered ranges never
    decreases when revenue, margin or volume grows. *)
Theorem compute_reward_monotone (w : weights) (rr mr vr : R * R)
    (r1 r2 m1 m2 v1 v2 : R) :
  0 <= w_revenue w -> 0 <= w_margin w -> 0 <= w_volume w ->
  fst rr <= snd rr -> fst mr <= snd mr -> fst vr <= snd vr ->
  r1 <= r2 -> m1 <= m2 -> v1 <= v2 ->
  compute_reward r1 m1 v1 w rr mr vr <= compute_reward r2 m2 v2 w rr mr vr.
Proof.
  intros Hr Hm Hv Hrr Hmr Hvr H1 H2 H3. unfold compute_reward.
  pose proof (normalize_mono _ _ _ _ Hrr H1).
  pose proof (normalize_mono _ _ _ _ Hmr H2).
  pose proof (volume_credit_mono _ _ (normalize_mono _ _ _ _ Hvr H3)).
  apply Rplus_le_compat; [apply Rplus_le_compat|]; apply Rmult_le_compat_l; assumption.
Qed.

Lemma compute_reward_bounds_witness :
  0 <= 0.4 /\ 0 <= compute_reward 100 50 10 (mk_weights 0.4 0.4 0.2)
                  (50, 150) (20, 80) (5, 15) <= 0.4 + 0.4 + 0.2.
Proof.
  split; [lra|].
  apply (compute_reward_bounds 100 50 10 (mk_weights 0.4 0.4 0.2)
           (50, 150) (20, 80) (5, 15)); simpl; lra.
Defined.

Lemma compute_reward_monotone_witness :
  compute_reward 100 50 10 (mk_weights 0.4 0.4 0.2) (50, 150) (20, 80) (5, 15)
  <= compute_reward 120 60 10 (mk_weights 0.4 0.4 0.2) (50, 150) (20, 80) (5, 15).
Proof.
  apply (compute_reward_monotone (mk_weights 0.4 0.4 0.2) (50, 150) (20, 80)
           (5, 15) 100 120 50 60 10 10); simpl; lra.
Defined.

End RewardExtras.

Module EncoderExtras.
Import StateEncoder.

(** [_digitize] returns the index of the first threshold above the value:
    every earlier threshold is at most the value, the threshold at the
    returned index (if any) is above it. *)
Theorem digitize_bin (value : R) (thresholds : list R) :
  let i := _digitize value thresholds in
  (i <= length thresholds)%nat
  /\ (forall j, (j < i)%nat -> nth j thresholds 0 <= value)
  /\ ((i < length thresholds)%nat -> value < nth i thresholds 0).
Proof.
  induction thresholds as [|t ts IH]; simpl.
  - repeat split; intros; lia.
  - destruct (Rlt_dec value t) as [Hlt|Hge].
    + repeat split; intros; simpl; try lia; assumption.
    + destruct IH as [H1 [H2 H3]]. repeat split.
      * lia.
      * intros [|j] Hj; simpl; [lra|apply H2; lia].
      * intros Hi. apply H3. lia.
Qed.

(** [_digitize] never puts a larger value in a lower bin, whatever the
    thresholds. *)
Theorem digitize_monotone (v1 v2 : R) (thresholds : list R) :
  v1 <= v2 -> (_digitize v1 thresholds <= _digitize v2 thresholds)%nat.
Proof.
  intros Hv. induction thresholds as [|t ts IH]; simpl; [lia|].
  destruct (Rlt_dec v1 t), (Rlt_dec v2 t); try lia; lra.
Qed.

Lemma digitize_monotone_witness :
  1 <= 2 /\ Nat.le (_digitize 1 [1.5; 2.5]) (_digitize 2 [1.5; 2.5]).
Proof.
  split; [lra|]. apply digitize_monotone. lra.
Defined.

Lemma min_max_some (l : list R) : l <> [] -> exists a b, min_max l = Some (a, b).
Proof.
  destruct l as [|x t]; [congruence|]. intros _. unfold min_max; simpl. eauto.
Qed.

Lemma quantile_bins_some (values : list R) (n : nat) :
  values <> [] -> exists th, _quantile_bins values n = Some th.
Proof. intros H. rewrite (EncoderFacts.quantile_bins_floor values n H). eauto. Qed.

Lemma positives_nonempty_of_lt (l : list R) (n : nat) :
  INR n * 0.1 < INR (length (positives l)) -> positives l <> [].
Proof. intros H E. rewrite E in H. simpl in H. pose proof (pos_INR n). lra. Qed.

Ltac solve_nonempty :=
  first [discriminate | eapply positives_nonempty_of_lt; eassumption].

(** [StateEncoder(rows)] raises exactly when [rows] is empty: on an empty
    dataset [qtys.min()] (or an index of [_quantile_bins]) raises, and on a
    non-empty one every threshold index and every reduction is defined,
    whatever the bin counts. *)
Theorem make_encoder_fails_iff_empty rows db cb lb ib fb :
  make_encoder rows db cb lb ib fb = None <-> rows = [].
Proof.
  split.
  - intros H. destruct rows as [|r rs]; [reflexivity|]. exfalso.
    unfold make_encoder in H. cbv zeta in H.
    destruct (positives (map (fun r0 => get (comp_1 r0) 0) (r :: rs))) as [|c cs];
    destruct (positives (map (fun r0 => get (lag_price r0) 0) (r :: rs))) as [|l ls];
    cbv beta iota in H;
    destruct (Rlt_dec _ (INR (length (positives (map (fun r0 => get (inventory_level r0) 0) (r :: rs))))));
    destruct (Rlt_dec _ (INR (length (positives (map (fun r0 => get (demand_forecast r0) 0) (r :: rs))))));
    cbv beta iota in H;
    repeat match type of H with
      | context [_quantile_bins ?l ?n] =>
        let E := fresh "E" in
        destruct (quantile_bins_some l n) as [? E]; [solve_nonempty|];
        rewrite E in H; cbv beta iota in H
      | context [min_max ?l] =>
        let E := fresh "E" in
        destruct (min_max_some l) as [? [? E]]; [solve_nonempty|];
        rewrite E in H; cbv beta iota in H
      end;
    discriminate H.
  - intros ->. destruct (make_encoder [] db cb lb ib fb) as [enc|] eqn:E; [|reflexivity].
    destruct (EncoderFacts.make_encoder_ranges [] db cb lb ib fb enc E) as [H _].
    discriminate H.
Qed.

Lemma hdrel_insert_sorted (x y : R) (l : list R) :
  y <= x -> HdRel Rle y l -> HdRel Rle y (insert_sorted x l).
Proof.
  intros Hyx Hd. destruct l as [|z t]; simpl; [constructor; assumption|].
  destruct (Rle_dec x z); constructor; [assumption|]. now inversion Hd.
Qed.

Lemma insert_sorted_sorted (x : R) (l : list R) :
  Sorted Rle l -> Sorted Rle (insert_sorted x l).
Proof.
  induction 1 as [|y t Ht IH Hd]; simpl; [repeat constructor|].
  destruct (Rle_dec x y).
  - constructor; [constructor; assumption|constructor; assumption].
  - constructor; [assumption|]. apply hdrel_insert_sorted; [lra|assumption].
Qed.

Lemma sort_sorted (l : list R) : Sorted Rle (sort l).
Proof. induction l; simpl; [constructor|now apply insert_sorted_sorted]. Qed.

Lemma in_insert_sorted (x y : R) (l : list R) :
  In y (insert_sorted x l) <-> y = x \/ In y l.
Proof.
  induction l as [|z t IH]; simpl; [firstorder congruence|].
  destruct (Rle_dec x z); simpl; [firstorder congruence|]. rewrite IH.
  firstorder congruence.
Qed.

Lemma in_sort (y : R) (l : list R) : In y (sort l) <-> In y l.
Proof.
  induction l as [|x t IH]; simpl; [tauto|]. rewrite in_insert_sorted, IH.
  firstorder congruence.
Qed.

Lemma sorted_nth_mono (l : list R) (i j : nat) :
  Sorted Rle l -> (i <= j)%nat -> (j < length l)%nat -> nth i l 0 <= nth j l 0.
Proof.
  intros Hs. apply Sorted_StronglySorted in Hs; [|exact Rle_trans].
  revert i j. induction Hs as [|a t Ht IH Hf]; intros i j Hij Hj; simpl in Hj; [lia|].
  destruct i as [|i], j as [|j]; simpl; try lra; try lia.
  - rewrite Forall_forall in Hf. apply Hf, nth_In. lia.
  - apply IH; lia.
Qed.

Lemma sorted_map_seq (g : nat -> R) (s m : nat) :
  (forall i j, (s <= i <= j)%nat -> (j < s + m)%nat -> g i <= g j) ->
  Sorted Rle (map g (seq s m)).
Proof.
  revert s. induction m as [|m IH]; intros s H; simpl; [constructor|].
  constructor.
  - apply IH. intros i j Hi Hj. apply H; lia.
  - destruct m as [|m]; simpl; constructor. apply H; lia.
Qed.

(** The thresholds of [_quantile_bins] are sorted ascending and each is one
    of the input values. *)
Theorem quantile_bins_sorted (values : list R) (num_bins : nat) (th : list R) :
  _quantile_bins values num_bins = Some th ->
  Sorted Rle th /\ Forall (fun t => In t values) th.
Proof.
  destruct values as [|v vs].
  - unfold _quantile_bins. simpl sort. destruct (num_bins - 1)%nat as [|k]; simpl.
    + intros H. injection H as <-. split; constructor.
    + rewrite nth_error_nil. discriminate.
  - rewrite (EncoderFacts.quantile_bins_floor (v :: vs) num_bins) by discriminate.
    intros H. injection H as <-.
    assert (Hidx : forall j, (1 <= j <= num_bins - 1)%nat ->
              (Nat.div (j * length (v :: vs)) num_bins < length (sort (v :: vs)))%nat).
    { intros j Hj. rewrite EncoderFacts.sort_length.
      apply Nat.Div0.div_lt_upper_bound. simpl length. nia. }
    split.
    + apply sorted_map_seq. intros i j Hij Hj.
      apply sorted_nth_mono; [exact (sort_sorted (v :: vs))| |apply Hidx; lia].
      apply Nat.Div0.div_le_mono. nia.
    + apply Forall_forall. intros t Ht. apply in_map_iff in Ht as [i [<- Hi]].
      apply in_seq in Hi. apply in_sort, nth_In, Hidx. lia.
Qed.

Lemma quantile_bins_sorted_witness :
  _quantile_bins [3; 1; 2] 3 = Some [2; 3] /\ Sorted Rle [2; 3].
Proof.
  assert (S1 : sort [3; 1; 2] = [1; 2; 3]) by (decide_reals; reflexivity).
  assert (Q : _quantile_bins [3; 1; 2] 3 = Some [2; 3]).
  { unfold _quantile_bins. rewrite S1. reflexivity. }
  split; [exact Q|]. exact (proj1 (quantile_bins_sorted [3; 1; 2] 3 [2; 3] Q)).
Defined.

Lemma map_opt_length {A B} (f : A -> option B) (l : list A) (l' : list B) :
  map_opt f l = Some l' -> length l' = length l.
Proof.
  revert l'. induction l as [|x t IH]; intros l' H; simpl in H.
  - now injection H as <-.
  - destruct (f x); [|discriminate]. destruct (map_opt f t) as [ys|] eqn:E; [|discriminate].
    injection H as <-. simpl. now rewrite (IH ys eq_refl).
Qed.

Lemma quantile_bins_length (values : list R) (n : nat) (th : list R) :
  _quantile_bins values n = Some th -> length th = (n - 1)%nat.
Proof. unfold _quantile_bins. intros H. now rewrite (map_opt_length _ _ _ H), length_seq. Qed.

(** The attributes of an encoder built by [__init__] that are copied or
    averaged from its arguments. *)
Lemma make_encoder_fields rows db cb lb ib fb enc :
  make_encoder rows db cb lb ib fb = Some enc ->
  demand_bins enc = db /\ competitor_bins enc = cb /\ lag_bins enc = lb
  /\ inventory_bins enc = ib /\ forecast_bins enc = fb
  /\ length (demand_thresholds enc) = (db - 1)%nat
  /\ length (comp_thresholds enc) = (cb - 1)%nat
  /\ length (lag_thresholds enc) = (lb - 1)%nat
  /\ (has_extended_state enc = true ->
      length (inventory_thresholds enc) = (ib - 1)%nat
      /\ length (forecast_thresholds enc) = (fb - 1)%nat)
  /\ base_price enc = mean (map unit_price rows)
  /\ base_qty enc = mean (map qty rows).
Proof.
  intros H. unfold make_encoder in H. cbv zeta in H.
  repeat (match type of H with
          | context [match ?x with Some _ => _ | None => _ end] =>
            let E := fresh "E" in destruct x eqn:E; [|discriminate H]
          end).
  injection H as <-. simpl.
  repeat split; try reflexivity;
    try (eapply quantile_bins_length; eassumption);
    match goal with Hx : _ && _ = true |- _ =>
      rewrite Hx in *; eapply quantile_bins_length; eassumption end.
Qed.

Lemma sum_list_bounds (l : list R) (a b : R) :
  Forall (fun x => a <= x <= b) l ->
  INR (length l) * a <= sum_list l <= INR (length l) * b.
Proof.
  unfold sum_list. induction 1 as [|x t Hx _ IH]; cbn [length fold_right]; [simpl; lra|].
  rewrite S_INR. lra.
Qed.

Lemma mean_bounds (l : list R) (a b : R) :
  min_max l = Some (a, b) -> a <= mean l <= b.
Proof.
  intros H.
  assert (Hne : l <> []) by (intros ->; discriminate H).
  assert (Hf : Forall (fun x => a <= x <= b) l)
    by (apply Forall_forall; intros x Hx; exact (EncoderFacts.min_max_bounds l a b x H Hx)).
  pose proof (sum_list_bounds l a b Hf) as [H1 H2].
  assert (Hn : 0 < INR (length l))
    by (apply lt_0_INR; destruct l; [congruence|simpl; lia]).
  unfold mean. split.
  - apply (Rmult_le_reg_r (INR (length l))); [exact Hn|].
    unfold Rdiv. rewrite Rmult_assoc, Rinv_l by lra. lra.
  - apply (Rmult_le_reg_r (INR (length l))); [exact Hn|].
    unfold Rdiv. rewrite Rmult_assoc, Rinv_l by lra. lra.
Qed.

(** The reference price and quantity of an encoder (the means) lie within
    the min-max ranges used to normalise prices and quantities. *)
Theorem make_encoder_base_in_range rows db cb lb ib fb enc :
  make_encoder rows db cb lb ib fb = Some enc ->
  price_min enc <= base_price enc <= price_max enc
  /\ qty_min enc <= base_qty enc <= qty_max enc.
Proof.
  intros H.
  destruct (EncoderFacts.make_encoder_ranges rows db cb lb ib fb enc H) as [Hq [Hp _]].
  destruct (make_encoder_fields rows db cb lb ib fb enc H)
    as [_ [_ [_ [_ [_ [_ [_ [_ [_ [Hbp Hbq]]]]]]]]]].
  rewrite Hbp, Hbq. split; apply mean_bounds; assumption.
Qed.

Lemma make_encoder_base_in_range_witness :
  exists enc, make_encoder [EncoderFacts.row_no_comp] 3 3 3 3 3 = Some enc
    /\ price_min enc <= base_price enc <= price_max enc.
Proof.
  destruct EncoderFacts.make_encoder_row_no_comp as [enc E].
  exists enc. split; [exact E|].
  exact (proj1 (make_encoder_base_in_range _ 3 3 3 3 3 enc E)).
Defined.

Lemma digitize_le_length (value : R) (thresholds : list R) :
  (_digitize value thresholds <= length thresholds)%nat.
Proof.
  induction thresholds as [|t ts IH]; simpl; [lia|].
  destruct (Rlt_dec value t); lia.
Qed.

End EncoderExtras.

Module ExportFacts.
Import StateEncoder ExportPolicy.

Lemma length_flat_map_const {A B} (f : A -> list B) (l : list A) (k : nat) :
  (forall x, length (f x) = k) -> length (flat_map f l) = (length l * k)%nat.
Proof.
  intros H. induction l as [|x t IH]; simpl; [reflexivity|].
  rewrite length_app, IH, H. reflexivity.
Qed.

Lemma NoDup_flat_map_proj {A B} (f : A -> list B) (proj : B -> A) (l : list A) :
  NoDup l -> (forall x, NoDup (f x)) -> (forall x z, In z (f x) -> proj z = x) ->
  NoDup (flat_map f l).
Proof.
  intros Hl Hf Hp. induction Hl as [|x t Hx Ht IH]; simpl; [constructor|].
  apply NoDup_app; [apply Hf|exact IH|].
  intros z Hz Hz2. apply in_flat_map in Hz2 as [y [Hy Hz']].
  apply Hp in Hz, Hz'. subst. contradiction.
Qed.

Lemma NoDup_map_proj {A B} (g : A -> B) (proj : B -> A) (l : list A) :
  NoDup l -> (forall x, proj (g x) = x) -> NoDup (map g l).
Proof.
  intros Hl Hp. induction Hl as [|x t Hx Ht IH]; simpl; constructor; [|exact IH].
  intros Hin. apply in_map_iff in Hin as [y [Hy Hy']].
  apply (f_equal proj) in Hy. rewrite !Hp in Hy. subst. contradiction.
Qed.

Lemma in_generate db cb sb lb ib fb ext ds :
  In ds (generate_discrete_states db cb sb lb ib fb ext) <->
  ((demandBin ds < db)%nat /\ (competitorPriceBin ds < cb)%nat
   /\ (seasonBin ds < sb)%nat /\ (lagPriceBin ds < lb)%nat
   /\ (if ext then (inventoryBin ds < ib)%nat /\ (forecastBin ds < fb)%nat
       else inventoryBin ds = 0%nat /\ forecastBin ds = 0%nat)).
Proof.
  destruct ds as [d c s l i f]. unfold generate_discrete_states. cbv zeta. simpl.
  split.
  - intros H. repeat (apply in_flat_map in H; destruct H as [? [? H]]).
    apply in_map_iff in H as [? [Heq ?]]. injection Heq; intros; subst.
    repeat match goal with Hs : In _ (seq _ _) |- _ => apply in_seq in Hs end.
    destruct ext; simpl in *.
    + repeat match goal with Hs : In _ (seq _ _) |- _ => apply in_seq in Hs end.
      repeat split; lia.
    + repeat match goal with Hs : _ = _ \/ False |- _ => destruct Hs as [Hs|[]] end.
      subst. repeat split; lia.
  - intros (Hd & Hc & Hs & Hl & Hx).
    apply in_flat_map; exists d; split; [apply in_seq; lia|].
    apply in_flat_map; exists c; split; [apply in_seq; lia|].
    apply in_flat_map; exists s; split; [apply in_seq; lia|].
    apply in_flat_map; exists l; split; [apply in_seq; lia|].
    destruct ext; [destruct Hx as [Hi Hf]|destruct Hx as [-> ->]].
    + apply in_flat_map; exists i; split; [apply in_seq; lia|].
      apply in_map_iff; exists f; split; [reflexivity|apply in_seq; lia].
    + apply in_flat_map; exists 0%nat; split; [left; reflexivity|].
      apply in_map_iff; exists 0%nat; split; [reflexivity|left; reflexivity].
Qed.

Lemma generate_length db cb sb lb ib fb ext :
  length (generate_discrete_states db cb sb lb ib fb ext)
  = (db * (cb * (sb * (lb * ((if ext then ib else 1) * (if ext then fb else 1))))))%nat.
Proof.
  unfold generate_discrete_states. cbv zeta.
  rewrite (length_flat_map_const _ _ (cb * (sb * (lb * ((if ext then ib else 1)
                                     * (if ext then fb else 1)))))%nat).
  { now rewrite length_seq. }
  intros x.
  rewrite (length_flat_map_const _ _ (sb * (lb * ((if ext then ib else 1)
                                     * (if ext then fb else 1))))%nat).
  { now rewrite length_seq. }
  intros y.
  rewrite (length_flat_map_const _ _ (lb * ((if ext then ib else 1)
                                     * (if ext then fb else 1)))%nat).
  { now rewrite length_seq. }
  intros z.
  rewrite (length_flat_map_const _ _ ((if ext then ib else 1)
                                     * (if ext then fb else 1))%nat).
  { now rewrite length_seq. }
  intros w.
  rewrite (length_flat_map_const _ _ (if ext then fb else 1)).
  { destruct ext; simpl; [now rewrite length_seq|reflexivity]. }
  intros u. rewrite length_map. destruct ext; simpl; [now rewrite length_seq|reflexivity].
Qed.

(** The policy table of [export_policy] (seasons [0..3]) lists every
    discrete state of the encoder exactly once: its length is
    [get_total_discrete_states()], it has no duplicates, and it contains
    exactly the states whose bins are in range (inventory and forecast bins
    fixed to 0 without extended state). *)
Theorem generate_discrete_states_spec (enc : encoder) :
  let L := generate_discrete_states (demand_bins enc) (competitor_bins enc) 4
             (lag_bins enc) (inventory_bins enc) (forecast_bins enc)
             (has_extended_state enc) in
  length L = get_total_discrete_states enc
  /\ NoDup L
  /\ forall ds, In ds L <->
       ((demandBin ds < demand_bins enc)%nat
        /\ (competitorPriceBin ds < competitor_bins enc)%nat
        /\ (seasonBin ds < 4)%nat /\ (lagPriceBin ds < lag_bins enc)%nat
        /\ (if has_extended_state enc
            then (inventoryBin ds < inventory_bins enc)%nat
                 /\ (forecastBin ds < forecast_bins enc)%nat
            else inventoryBin ds = 0%nat /\ forecastBin ds = 0%nat)).
Proof.
  intros L. split; [|split].
  - unfold L. rewrite generate_length. unfold get_total_discrete_states.
    destruct (has_extended_state enc); ring.
  - unfold L, generate_discrete_states. cbv zeta.
    apply (NoDup_flat_map_proj _ demandBin); [apply seq_NoDup| |].
    2: { intros x z Hz. repeat (apply in_flat_map in Hz; destruct Hz as [? [? Hz]]).
         apply in_map_iff in Hz as [? [<- _]]. reflexivity. }
    intros x. apply (NoDup_flat_map_proj _ competitorPriceBin); [apply seq_NoDup| |].
    2: { intros y z Hz. repeat (apply in_flat_map in Hz; destruct Hz as [? [? Hz]]).
         apply in_map_iff in Hz as [? [<- _]]. reflexivity. }
    intros y. apply (NoDup_flat_map_proj _ seasonBin); [apply seq_NoDup| |].
    2: { intros w z Hz. repeat (apply in_flat_map in Hz; destruct Hz as [? [? Hz]]).
         apply in_map_iff in Hz as [? [<- _]]. reflexivity. }
    intros w. apply (NoDup_flat_map_proj _ lagPriceBin); [apply seq_NoDup| |].
    2: { intros u z Hz. repeat (apply in_flat_map in Hz; destruct Hz as [? [? Hz]]).
         apply in_map_iff in Hz as [? [<- _]]. reflexivity. }
    intros u. apply (NoDup_flat_map_proj _ inventoryBin).
    + destruct (has_extended_state enc); [apply seq_NoDup|repeat constructor; simpl; tauto].
    + intros t. apply (NoDup_map_proj _ forecastBin); [|reflexivity].
      destruct (has_extended_state enc); [apply seq_NoDup|repeat constructor; simpl; tauto].
    + intros t z Hz. apply in_map_iff in Hz as [? [<- _]]. reflexivity.
  - intros ds. apply in_generate.
Qed.

(** Every discrete state produced by [encode_discrete] for an encoder built
    by [__init__] (all bin counts at least 1) appears in the policy table
    generated for the same bin counts and extended-state flag. *)
Theorem encode_discrete_in_policy_table rows db cb lb ib fb enc r :
  make_encoder rows db cb lb ib fb = Some enc ->
  (1 <= db)%nat -> (1 <= cb)%nat -> (1 <= lb)%nat -> (1 <= ib)%nat -> (1 <= fb)%nat ->
  In (encode_discrete enc r)
     (generate_discrete_states db cb 4 lb ib fb (has_extended_state enc)).
Proof.
  intros H Hd Hc Hl Hi Hf.
  destruct (EncoderExtras.make_encoder_fields rows db cb lb ib fb enc H)
    as [_ [_ [_ [_ [_ [Ld [Lc [Ll [Lx _]]]]]]]]].
  apply in_generate. unfold encode_discrete. cbv zeta. cbn [demandBin competitorPriceBin
    seasonBin lagPriceBin inventoryBin forecastBin].
  pose proof (EncoderExtras.digitize_le_length (qty r) (demand_thresholds enc)).
  pose proof (EncoderExtras.digitize_le_length (get (comp_1 r) 0) (comp_thresholds enc)).
  pose proof (EncoderExtras.digitize_le_length (get (lag_price r) 0) (lag_thresholds enc)).
  repeat split; try lia.
  - repeat match goal with |- context [if ?c then _ else _] => destruct c end; lia.
  - destruct (has_extended_state enc) eqn:Ex; [|split; reflexivity].
    destruct (Lx eq_refl) as [Li Lf].
    pose proof (EncoderExtras.digitize_le_length (get (inventory_level r) 0)
                  (inventory_thresholds enc)).
    pose proof (EncoderExtras.digitize_le_length (get (demand_forecast r) 0)
                  (forecast_thresholds enc)).
    split; lia.
Qed.

Lemma encode_discrete_in_policy_table_witness :
  exists enc, make_encoder [EncoderFacts.row_no_comp] 3 3 3 3 3 = Some enc
    /\ In (encode_discrete enc EncoderFacts.row_no_comp)
          (generate_discrete_states 3 3 4 3 3 3 (has_extended_state enc)).
Proof.
  destruct EncoderFacts.make_encoder_row_no_comp as [enc E].
  exists enc. split; [exact E|].
  apply (encode_discrete_in_policy_table _ 3 3 3 3 3 enc _ E); lia.
Defined.

End ExportFacts.

Module ContinuousFacts.
Import StateEncoder.



(** A row whose month is the representative month [season_to_month[s]] of
    a season [s] is binned back into season [s] by [encode_discrete], and its
    continuous season features are those [discrete_to_continuous] gives
    for [s]. *)
Theorem season_round_trip (enc : encoder) (r : row) (ds : discrete_state) (v : list R) :
  discrete_to_continuous enc ds = Some v ->
  month r = Some (nth (seasonBin ds) [1; 4; 7; 10]%Z 0%Z) ->
  seasonBin (encode_discrete enc r) = seasonBin ds
  /\ nth 2 (encode_continuous enc r) 0 = nth 2 v 0
  /\ nth 3 (encode_continuous enc r) 0 = nth 3 v 0.
Proof.
  unfold discrete_to_continuous, encode_discrete, encode_continuous, row_month.
  intros Hv Hm. rewrite Hm.
  destruct (seasonBin ds) as [|[|[|[|s]]]];
    [..| simpl in Hv; rewrite nth_error_nil in Hv; discriminate Hv];
    cbn in Hv; injection Hv as <-; repeat split; reflexivity.
Qed.

Lemma season_round_trip_witness :
  exists enc v,
    discrete_to_continuous enc (mk_discrete 0 0 2 0 0 0) = Some v
    /\ seasonBin (encode_discrete enc
         (mk_row 1 2 None (Some 7%Z) None None None None)) = 2%nat.
Proof.
  destruct EncoderFacts.make_encoder_row_no_comp as [enc _].
  exists enc. eexists. split; [reflexivity|].
  apply (season_round_trip enc (mk_row 1 2 None (Some 7%Z) None None None None)
           (mk_discrete 0 0 2 0 0 0) _ eq_refl eq_refl).
Defined.

(** The continuous encoding is periodic in the month with period 12: a row
    with month [m + 12] is encoded exactly like the same row with month
    [m] (in particular month 0 like December). *)
Theorem encode_continuous_month_period (enc : encoder) (r : row) (m : Z) :
  month r = Some m ->
  encode_continuous enc
    (mk_row (qty r) (unit_price r) (comp_1 r) (Some (m + 12)%Z) (lag_price r)
            (inventory_level r) (demand_forecast r) (freight_price r))
  = encode_continuous enc r.
Proof.
  intros Hm. unfold encode_continuous, row_month. cbn [month qty unit_price comp_1
    lag_price inventory_level demand_forecast freight_price]. rewrite Hm.
  replace (2 * PI * IZR (m + 12) / 12) with (2 * PI * IZR m / 12 + 2 * INR 1 * PI)
    by (rewrite plus_IZR; simpl; field).
  rewrite sin_period, cos_period. reflexivity.
Qed.

Lemma encode_continuous_month_period_witness :
  exists enc, encode_continuous enc (mk_row 1 2 None (Some (0 + 12)%Z) None None None None)
            = encode_continuous enc (mk_row 1 2 None (Some 0%Z) None None None None).
Proof.
  destruct EncoderFacts.make_encoder_row_no_comp as [enc _]. exists enc.
  exact (encode_continuous_month_period enc
           (mk_row 1 2 None (Some 0%Z) None None None None) 0%Z eq_refl).
Defined.

End ContinuousFacts.

Module EnvironmentExtras.
Import StateEncoder Environment EnvironmentFacts Episode.

Lemma clip_range (e : R) : 0.05 <= clip e 0.05 4.0 <= 4.0.
Proof. unfold clip, Rmin, Rmax. repeat destruct Rle_dec; lra. Qed.

Lemma effective_elasticity_range env ds :
  0.05 <= _get_effective_elasticity env ds <= 4.0.
Proof. unfold _get_effective_elasticity. apply clip_range. Qed.

Lemma np_index_some_iff {A} (l : list A) (a : Z) :
  (exists x, np_index l a = Some x)
  <-> (- Z.of_nat (length l) <= a < Z.of_nat (length l))%Z.
Proof.
  unfold np_index. split.
  - intros [x Hx]. destruct (Z.leb_spec 0 a).
    + assert (nth_error l (Z.to_nat a) <> None) by congruence.
      apply nth_error_Some in H0. lia.
    + destruct (Z.leb_spec (- Z.of_nat (length l)) a); [lia|discriminate].
  - intros Ha. destruct (Z.leb_spec 0 a).
    + destruct (nth_error l (Z.to_nat a)) eqn:E; [eauto|].
      apply nth_error_None in E; lia.
    + destruct (Z.leb_spec (- Z.of_nat (length l)) a); [|lia].
      destruct (nth_error l (Z.to_nat (Z.of_nat (length l) + a))) eqn:E; [eauto|].
      apply nth_error_None in E; lia.
Qed.

Lemma prev_multiplier_some_iff env st :
  prev_multiplier env st <> None
  <-> (last_action st < Z.of_nat (length (action_multipliers env)))%Z.
Proof.
  unfold prev_multiplier. destruct (Z.leb_spec 0 (last_action st)).
  - unfold np_index. destruct (Z.leb_spec 0 (last_action st)); [|lia].
    destruct (nth_error (action_multipliers env) (Z.to_nat (last_action st))) eqn:E;
      split; intros Hx; try congruence.
    + assert (nth_error (action_multipliers env) (Z.to_nat (last_action st)) <> None)
        by congruence.
      apply nth_error_Some in H1. lia.
    + apply nth_error_None in E. lia.
  - split; intros; [lia|discriminate].
Qed.

Lemma apply_penalty_prev env st m rw rw' :
  apply_penalty env st m rw = Some rw' -> prev_multiplier env st <> None.
Proof. unfold apply_penalty. destruct (prev_multiplier env st); congruence. Qed.

(** The converse direction of the success condition of a real-data step. *)
Lemma real_step_exists env st a :
  (current_idx st < length (rows env))%nat ->
  (- Z.of_nat (length (action_multipliers env)) <= a
   < Z.of_nat (length (action_multipliers env)))%Z ->
  (last_action st < Z.of_nat (length (action_multipliers env)))%Z ->
  exists st' res, real_step env st a = Some (st', res)
    /\ st' = {| current_idx := ((current_idx st + 1) mod length (rows env))%nat;
                last_action := a |}.
Proof.
  intros Hi Ha Hl.
  destruct (nth_error (rows env) (current_idx st)) as [r|] eqn:Er;
    [|apply nth_error_None in Er; lia].
  destruct (proj2 (np_index_some_iff _ _) Ha) as [m Hm].
  exact (real_step_some env st a r m Er Hm (proj2 (prev_multiplier_some_iff _ _) Hl)).
Qed.

Lemma discrete_to_continuous_some enc ds :
  (seasonBin ds < 4)%nat -> discrete_to_continuous enc ds <> None.
Proof.
  unfold discrete_to_continuous. intros Hs.
  destruct (seasonBin ds) as [|[|[|[|s]]]]; simpl; try discriminate. lia.
Qed.

Lemma discrete_to_continuous_none enc ds :
  (4 <= seasonBin ds)%nat -> discrete_to_continuous enc ds = None.
Proof.
  unfold discrete_to_continuous. intros Hs.
  destruct (seasonBin ds) as [|[|[|[|s]]]]; try lia.
  simpl. rewrite nth_error_nil. reflexivity.
Qed.


(** Inversion of a returned synthetic step. *)
Lemma synthetic_step_inv env st a d res :
  _synthetic_step env st a d = Some res ->
  exists ds m,
    seasonBin ds = draw_season d
    /\ discrete_to_continuous (encoder env) ds = Some (next_state res)
    /\ np_index (action_multipliers env) a = Some m
    /\ price (step_info res) = base_price (encoder env) * m
    /\ revenue (step_info res) = price (step_info res) * volume (step_info res)
    /\ margin (step_info res)
       = (price (step_info res) - base_cost (encoder env)) * volume (step_info res)
    /\ 1 <= volume (step_info res)
    /\ apply_penalty env st m
         (base_reward env (revenue (step_info res)) (margin (step_info res))
            (volume (step_info res))) = Some (reward res).
Proof.
  unfold _synthetic_step. cbv zeta. intros H.
  destruct (discrete_to_continuous _ _) as [v|] eqn:E1; [|discriminate].
  destruct (np_index (action_multipliers env) a) as [m|] eqn:E2; [|discriminate].
  match type of H with context [apply_penalty env st m ?rw] =>
    destruct (apply_penalty env st m rw) as [rw'|] eqn:E3; [|discriminate] end.
  injection H as <-. eexists; exists m. cbn [next_state step_info price volume
    revenue margin reward].
  split; [|split; [exact E1|]]; [reflexivity|].
  repeat split; try reflexivity; try exact E2; try exact E3.
  match goal with |- _ <= Rmax 1.0 ?x => pose proof (Rmax_l 1.0 x) end. lra.
Qed.

(** The converse direction of the success condition of a synthetic step. *)
Lemma synthetic_step_exists env st a d :
  (draw_season d < 4)%nat ->
  (- Z.of_nat (length (action_multipliers env)) <= a
   < Z.of_nat (length (action_multipliers env)))%Z ->
  (last_action st < Z.of_nat (length (action_multipliers env)))%Z ->
  exists res, _synthetic_step env st a d = Some res.
Proof.
  intros Hs Ha Hl. unfold _synthetic_step. cbv zeta.
  destruct (discrete_to_continuous _ _) as [v|] eqn:E1.
  2:{ exfalso. eapply discrete_to_continuous_some; [|exact E1]. exact Hs. }
  destruct (np_index (action_multipliers env) a) as [m|] eqn:E2.
  2:{ destruct (proj2 (np_index_some_iff _ _) Ha) as [x Hx]. congruence. }
  match goal with |- context [apply_penalty env st m ?rw] =>
    destruct (apply_penalty_some env st m rw
                (proj2 (prev_multiplier_some_iff _ _) Hl)) as [rw' Hrw];
    rewrite Hrw end.
  eexists; reflexivity.
Qed.

Lemma penalty_nonneg (prev cur w : R) :
  0 <= w -> 0 <= Reward.compute_price_change_penalty prev cur w.
Proof.
  intros Hw. unfold Reward.compute_price_change_penalty.
  destruct (Rle_dec prev 0); [lra|].
  apply Rmult_le_pos; [lra|]. unfold Rdiv. apply Rmult_le_pos; [apply Rabs_pos|].
  left; apply Rinv_0_lt_compat; lra.
Qed.

Lemma apply_penalty_le env st m rw rw' :
  0 <= price_change_penalty env -> apply_penalty env st m rw = Some rw' -> rw' <= rw.
Proof.
  intros Hp. unfold apply_penalty.
  destruct (prev_multiplier env st) as [[prev|]|]; intros H; injection H as <- ||
    discriminate H.
  - pose proof (penalty_nonneg prev m (price_change_penalty env) Hp). lra.
  - lra.
Qed.

Lemma nat_mod_succ_add (i k n : nat) :
  (((i + 1) mod n + k) mod n = (i + S k) mod n)%nat.
Proof.
  rewrite Nat.Div0.add_mod_idemp_l. f_equal. lia.
Qed.

(** An episode of steps with actions in [[0, num_actions)] and synthetic
    draws in range, from a valid cursor and previous action, returns; the
    cursor advances by one row per real-data step and stays valid. *)
Lemma run_episode_ok env st acc steps :
  (current_idx st < length (rows env))%nat ->
  (last_action st < Z.of_nat (length (action_multipliers env)))%Z ->
  Forall (fun stp : Z * bool * synthetic_draw => let '(a, _, d) := stp in
            (0 <= a < Z.of_nat (length (action_multipliers env)))%Z
            /\ (draw_season d < 4)%nat) steps ->
  exists st' tot,
    run_episode env st acc steps = Some (st', tot)
    /\ current_idx st' = ((current_idx st
         + length (filter (fun stp : Z * bool * synthetic_draw =>
                             let '(_, b, _) := stp in negb b) steps))
         mod length (rows env))%nat
    /\ (current_idx st' < length (rows env))%nat
    /\ (last_action st' < Z.of_nat (length (action_multipliers env)))%Z.
Proof.
  revert st acc. induction steps as [|[[a b] d] rest IH]; intros st acc Hi Hl Hf.
  - exists st, acc. simpl. rewrite Nat.add_0_r, Nat.mod_small by assumption.
    repeat split; assumption.
  - inversion Hf as [|x y Hx Hrest]; subst. simpl in Hx. destruct Hx as [Ha Hd].
    cbn [run_episode]. unfold step.
    destruct b.
    + destruct (synthetic_step_exists env st a d Hd ltac:(lia) Hl) as [res Hres].
      rewrite Hres.
      destruct (IH st (acc + reward res) Hi Hl Hrest) as [st' [tot [Hr [Hc Hrest']]]].
      exists st', tot. split; [exact Hr|]. split; [|exact Hrest'].
      rewrite Hc. reflexivity.
    + destruct (real_step_exists env st a Hi ltac:(lia) Hl) as [st1 [res [Hres Hst1]]].
      rewrite Hres.
      assert (Hlen : (0 < length (rows env))%nat) by lia.
      assert (Hi1 : (current_idx st1 < length (rows env))%nat)
        by (rewrite Hst1; apply Nat.mod_upper_bound; lia).
      assert (Hl1 : (last_action st1 < Z.of_nat (length (action_multipliers env)))%Z)
        by (rewrite Hst1; simpl; lia).
      destruct (IH st1 (acc + reward res) Hi1 Hl1 Hrest)
        as [st' [tot [Hr [Hc Hrest']]]].
      exists st', tot. split; [exact Hr|]. split; [|exact Hrest'].
      rewrite Hc, Hst1. cbn [current_idx filter negb length].
      apply nat_mod_succ_add.
Qed.

(** A test environment with a positive base price. *)
Definition enc1 : StateEncoder.encoder :=
  mk_encoder 3 3 3 3 3 [] [] [] [] [] false 0 1 0 1 0 1 0 1 0 1 0 1 10 5 2.
Definition env1 : environment :=
  mk_env [EncoderFacts.row_no_comp] weights0 [0.9; 1; 1.1] 0.15 enc1 0.7
         (0, 1) (0, 1) (0, 1).

(** [_predict_demand] never predicts more at a higher price: for a positive
    base price and a non-negative row quantity it is non-increasing in the
    price, the effective elasticity being clipped to [[0.05, 4]]. *)
Theorem predict_demand_antitone env r ds p1 p2 :
  0 < base_price (encoder env) -> 0 <= qty r -> p1 <= p2 ->
  0.05 <= _get_effective_elasticity env ds <= 4.0
  /\ _predict_demand env r p2 ds <= _predict_demand env r p1 ds.
Proof.
  intros Hbp Hq Hp. pose proof (effective_elasticity_range env ds) as He.
  split; [exact He|].
  unfold _predict_demand, price_denominator.
  set (e := _get_effective_elasticity env ds) in *.
  set (bp := base_price (encoder env)) in *.
  destruct (Req_dec_T bp 0) as [E|_]; [lra|].
  match goal with |- Rmax _ (?q * _) <= Rmax _ (_ * _) =>
    assert (Hbq : 0 <= q) end.
  { destruct (has_extended_state (encoder env)); cbn [andb];
      [destruct (Rlt_dec 0 (get (demand_forecast r) 0)); lra|lra]. }
  assert (Hr : (p1 - bp) / bp <= (p2 - bp) / bp).
  { unfold Rdiv. apply Rmult_le_compat_r; [left; apply Rinv_0_lt_compat; lra|lra]. }
  assert (Hx : exp (- e * ((p2 - bp) / bp)) <= exp (- e * ((p1 - bp) / bp))).
  { destruct (Req_dec ((p1 - bp) / bp) ((p2 - bp) / bp)) as [Eq|Ne].
    - rewrite Eq; lra.
    - left; apply exp_increasing; nra. }
  match goal with |- Rmax _ (?q * _) <= Rmax _ (_ * _) =>
    assert (Hm : q * exp (- e * ((p2 - bp) / bp)) <= q * exp (- e * ((p1 - bp) / bp)))
      by (apply Rmult_le_compat_l; assumption) end.
  unfold Rmax. repeat destruct Rle_dec; lra.
Qed.

Lemma predict_demand_antitone_witness :
  0 < base_price (encoder env1) /\ 0 <= qty EncoderFacts.row_no_comp /\ 10 <= 12
  /\ _predict_demand env1 EncoderFacts.row_no_comp 12 (mk_discrete 0 0 0 0 0 0)
     <= _predict_demand env1 EncoderFacts.row_no_comp 10 (mk_discrete 0 0 0 0 0 0).
Proof.
  assert (H1 : 0 < base_price (encoder env1)) by (simpl; lra).
  assert (H2 : 0 <= qty EncoderFacts.row_no_comp) by (simpl; lra).
  split; [exact H1|]. split; [exact H2|]. split; [lra|].
  exact (proj2 (predict_demand_antitone env1 EncoderFacts.row_no_comp
                  (mk_discrete 0 0 0 0 0 0) 10 12 H1 H2 ltac:(lra))).
Defined.

(** A real-data step returns exactly when the cursor indexes a row, the
    action indexes [action_multipliers] (negative indices counting from the
    end, as numpy does) and the previous action, if non-negative, indexes it
    too; otherwise it raises an [IndexError]. *)
Theorem real_step_succeeds_iff env st a :
  (exists st' res, real_step env st a = Some (st', res))
  <-> (current_idx st < length (rows env))%nat
      /\ (- Z.of_nat (length (action_multipliers env)) <= a
          < Z.of_nat (length (action_multipliers env)))%Z
      /\ (last_action st < Z.of_nat (length (action_multipliers env)))%Z.
Proof.
  split.
  - intros [st' [res H]].
    destruct (real_step_inv env st a st' res H)
      as [r [m [Hr [Hm [_ [_ [_ [_ [_ [_ Hp]]]]]]]]]].
    split; [|split].
    + apply nth_error_Some. congruence.
    + apply np_index_some_iff. eauto.
    + apply prev_multiplier_some_iff. eapply apply_penalty_prev; exact Hp.
  - intros [Hi [Ha Hl]].
    destruct (real_step_exists env st a Hi Ha Hl) as [st' [res [H _]]]. eauto.
Qed.

(** A negative action [a] is accepted by a real-data step, which prices at
    [action_multipliers[len + a]] and records [a] as [last_action]; the next
    step then reads no previous multiplier and charges no stability
    penalty. *)
Theorem real_step_negative_action env st a st' res :
  real_step env st a = Some (st', res) -> (a < 0)%Z ->
  price (step_info res)
  = base_price (encoder env)
    * nth (Z.to_nat (Z.of_nat (length (action_multipliers env)) + a))
          (action_multipliers env) 0
  /\ prev_multiplier env st' = Some None.
Proof.
  intros H Ha.
  destruct (real_step_inv env st a st' res H)
    as [r [m [_ [Hm [Hla [_ [Hp _]]]]]]].
  split.
  - rewrite Hp. f_equal. unfold np_index in Hm.
    destruct (Z.leb_spec 0 a); [lia|].
    destruct (_ <=? a)%Z; [|discriminate].
    symmetry. apply nth_error_nth. exact Hm.
  - unfold prev_multiplier. rewrite Hla. destruct (Z.leb_spec 0 a); [lia|].
    reflexivity.
Qed.

Lemma real_step_negative_action_witness :
  exists E st' res,
    make_environment [EncoderFacts.row_no_comp] weights0 [1] 0.15
      = Some (E, {| current_idx := 0; last_action := (-1)%Z |})
    /\ real_step E {| current_idx := 0; last_action := (-1)%Z |} (-1) = Some (st', res)
    /\ price (step_info res) = base_price (encoder E) * 1
    /\ prev_multiplier E st' = Some None.
Proof.
  destruct make_environment_row_no_comp as [E H].
  destruct (make_environment_inv _ _ _ _ E _ H) as [Hrows [Hm _]].
  destruct (real_step_exists E {| current_idx := 0; last_action := (-1)%Z |} (-1))
    as [st' [res [Hs _]]]; [rewrite Hrows; simpl; lia|rewrite Hm; simpl; lia|
                            rewrite Hm; simpl; lia|].
  destruct (real_step_negative_action E _ (-1) st' res Hs ltac:(lia)) as [Hp Hn].
  exists E, st', res. split; [exact H|]. split; [exact Hs|]. split; [|exact Hn].
  rewrite Hp, Hm. reflexivity.
Defined.

(** A synthetic step returns exactly when the drawn season bin is below 4,
    the action indexes [action_multipliers] and the previous action, if
    non-negative, indexes it too; otherwise it raises. *)
Theorem synthetic_step_succeeds_iff env st a d :
  (exists res, _synthetic_step env st a d = Some res)
  <-> (draw_season d < 4)%nat
      /\ (- Z.of_nat (length (action_multipliers env)) <= a
          < Z.of_nat (length (action_multipliers env)))%Z
      /\ (last_action st < Z.of_nat (length (action_multipliers env)))%Z.
Proof.
  split.
  - intros [res H].
    destruct (synthetic_step_inv env st a d res H)
      as [ds [m [Hs [Hv [Hm [_ [_ [_ [_ Hp]]]]]]]]].
    split; [|split].
    + destruct (Nat.lt_ge_cases (draw_season d) 4) as [|Hge]; [assumption|].
      rewrite <- Hs in Hge. rewrite (discrete_to_continuous_none _ _ Hge) in Hv.
      discriminate.
    + apply np_index_some_iff. eauto.
    + apply prev_multiplier_some_iff. eapply apply_penalty_prev; exact Hp.
  - intros [Hs [Ha Hl]]. exact (synthetic_step_exists env st a d Hs Ha Hl).
Qed.



(** With a non-negative [price_change_penalty], the stability penalty never
    raises the reward: the reward of a returned step, real or synthetic, is
    at most the base reward of its revenue, margin and volume. *)
Theorem step_penalty_lowers_reward env st a use_synthetic d st' res :
  0 <= price_change_penalty env ->
  step env st a use_synthetic d = Some (st', res) ->
  reward res <= base_reward env (revenue (step_info res)) (margin (step_info res))
                  (volume (step_info res)).
Proof.
  intros Hpen H. destruct use_synthetic; simpl in H.
  - destruct (_synthetic_step env st a d) as [res'|] eqn:Hs; [|discriminate].
    injection H as _ <-.
    destruct (synthetic_step_inv env st a d res' Hs)
      as [_ [m [_ [_ [_ [_ [_ [_ [_ Hp]]]]]]]]].
    exact (apply_penalty_le _ _ _ _ _ Hpen Hp).
  - destruct (real_step_inv env st a st' res H)
      as [_ [m [_ [_ [_ [_ [_ [_ [_ [_ Hp]]]]]]]]]].
    exact (apply_penalty_le _ _ _ _ _ Hpen Hp).
Qed.

Lemma step_penalty_lowers_reward_witness :
  exists st' res,
    0 <= price_change_penalty env1
    /\ step env1 {| current_idx := 0; last_action := 1%Z |} 2 false draw0 = Some (st', res)
    /\ reward res <= base_reward env1 (revenue (step_info res)) (margin (step_info res))
                       (volume (step_info res)).
Proof.
  destruct (real_step_exists env1 {| current_idx := 0; last_action := 1%Z |} 2)
    as [st' [res [Hs _]]]; [simpl; lia..|].
  assert (Hp : 0 <= price_change_penalty env1) by (simpl; lra).
  exists st', res. split; [exact Hp|]. split; [exact Hs|].
  exact (step_penalty_lowers_reward env1 _ 2 false draw0 st' res Hp Hs).
Defined.

(** After [reset()] draws row [i], an episode whose actions are those
    [select_action] can return (in [[0, num_actions)]) and whose synthetic
    draws are in range never raises, and ends with the cursor at row
    [(i + number of real-data steps) mod len(rows)]. *)
Theorem reset_episode env i st s0 steps :
  reset env i = Some (st, s0) ->
  Forall (fun stp : Z * bool * synthetic_draw => let '(a, _, d) := stp in
            (0 <= a < Z.of_nat (length (action_multipliers env)))%Z
            /\ (draw_season d < 4)%nat) steps ->
  exists r st' episode_reward,
    nth_error (rows env) i = Some r
    /\ s0 = encode_continuous (encoder env) r
    /\ run_episode env st 0 steps = Some (st', episode_reward)
    /\ current_idx st' = ((i + length (filter (fun stp : Z * bool * synthetic_draw =>
                             let '(_, b, _) := stp in negb b) steps))
                          mod length (rows env))%nat.
Proof.
  intros Hr Hf. unfold reset in Hr.
  destruct (nth_error (rows env) i) as [r|] eqn:Ei; [|discriminate].
  injection Hr as <- <-.
  destruct (run_episode_ok env {| current_idx := i; last_action := (-1)%Z |} 0 steps)
    as [st' [tot [Hrun [Hc _]]]].
  - simpl. apply nth_error_Some. congruence.
  - simpl. lia.
  - exact Hf.
  - exists r, st', tot. split; [reflexivity|]. split; [reflexivity|].
    split; [exact Hrun|exact Hc].
Qed.

Lemma reset_episode_witness :
  exists E st s0 st' tot,
    make_environment [EncoderFacts.row_no_comp] weights0 [1] 0.15
      = Some (E, {| current_idx := 0; last_action := (-1)%Z |})
    /\ reset E 0 = Some (st, s0)
    /\ run_episode E st 0 [(0%Z, false, draw0); (0%Z, true, draw0)] = Some (st', tot).
Proof.
  destruct make_environment_row_no_comp as [E H].
  destruct (make_environment_inv _ _ _ _ E _ H) as [Hrows [Hm _]].
  assert (Hreset : reset E 0 = Some ({| current_idx := 0; last_action := (-1)%Z |},
                     encode_continuous (encoder E) EncoderFacts.row_no_comp))
    by (unfold reset; rewrite Hrows; reflexivity).
  destruct (reset_episode E 0 _ _ [(0%Z, false, draw0); (0%Z, true, draw0)] Hreset)
    as [r [st' [tot [_ [_ [Hrun _]]]]]].
  - rewrite Hm. repeat constructor; simpl; lia.
  - exists E, {| current_idx := 0; last_action := (-1)%Z |},
      (encode_continuous (encoder E) EncoderFacts.row_no_comp), st', tot.
    split; [exact H|]. split; [exact Hreset|exact Hrun].
Defined.

(** The normalisation ranges set by [__init__]: for a positive base
    quantity, the volume range is increasing, the revenue range is
    increasing when the base price is positive, and the margin range is
    increasing exactly when the base cost is below [1.72] times the base
    price (otherwise it is reversed or empty). *)
Theorem make_environment_ranges rows w mults pen E st :
  make_environment rows w mults pen = Some (E, st) ->
  let bp := base_price (encoder E) in
  let bc := base_cost (encoder E) in
  let bq := base_qty (encoder E) in
  0 < bq ->
  fst (volume_range E) < snd (volume_range E)
  /\ (0 < bp -> fst (revenue_range E) < snd (revenue_range E))
  /\ (fst (margin_range E) < snd (margin_range E) <-> bc < 1.72 * bp).
Proof.
  unfold make_environment. destruct (make_encoder rows 3 3 3 3 3) as [enc|];
    [|discriminate].
  intros H; injection H as <- _. cbn. intros Hq.
  split; [nra|]. split; [intros; nra|].
  split; intros; nra.
Qed.

Lemma make_environment_ranges_witness :
  exists E,
    make_environment [EncoderFacts.row_no_comp] weights0 [1] 0.15
      = Some (E, {| current_idx := 0; last_action := (-1)%Z |})
    /\ 0 < base_qty (encoder E)
    /\ fst (volume_range E) < snd (volume_range E).
Proof.
  destruct make_environment_row_no_comp as [E H].
  assert (Hq : 0 < base_qty (encoder E)).
  { unfold make_environment in H.
    destruct (make_encoder _ 3 3 3 3 3) as [enc|] eqn:Ee; [|discriminate].
    injection H as <-. cbn [encoder].
    destruct (EncoderExtras.make_encoder_fields _ _ _ _ _ _ _ Ee)
      as [_ [_ [_ [_ [_ [_ [_ [_ [_ [_ Hb]]]]]]]]]].
    rewrite Hb. unfold mean, sum_list. simpl. lra. }
  exists E. split; [exact H|]. split; [exact Hq|].
  exact (proj1 (make_environment_ranges _ _ _ _ E _ H Hq)).
Defined.

End EnvironmentExtras.

Module BufferExtras.
Import ReplayBuffer BufferFacts.

Lemma list_max_ge (l : list R) (m : R) :
  list_max l = Some m -> forall x, In x l -> x <= m.
Proof.
  destruct l as [|y t]; [discriminate|]. simpl. intros H; injection H as <-.
  destruct (EncoderFacts.fold_max_ge t y) as [H1 H2].
  intros x [<-|Hx]; [exact H1|exact (H2 x Hx)].
Qed.

Lemma list_max_in (l : list R) (m : R) :
  list_max l = Some m -> In m l.
Proof.
  destruct l as [|y t]; [discriminate|]. simpl. intros H; injection H as <-.
  revert y. induction t as [|z t IH]; intros y; simpl; [left; reflexivity|].
  destruct (IH (Rmax y z)) as [E|Hin].
  - assert (Hc : Rmax y z = y \/ Rmax y z = z)
      by (unfold Rmax; destruct Rle_dec; auto).
    destruct Hc as [Hc|Hc]; [left|right; left]; rewrite <- E; symmetry; exact Hc.
  - right; right; exact Hin.
Qed.

Definition set_pair (acc : list R) (iv : nat * R) : list R :=
  set_nth acc (fst iv) (snd iv).

Lemma fold_set_length (ps : list (nat * R)) (l : list R) :
  length (fold_left set_pair ps l) = length l.
Proof.
  revert l; induction ps as [|p ps IH]; intros l; simpl; [reflexivity|].
  rewrite IH. apply length_set_nth.
Qed.



Lemma forall_set_nth (P : R -> Prop) (l : list R) (i : nat) (v : R) :
  Forall P l -> P v -> Forall P (set_nth l i v).
Proof.
  revert i; induction l as [|x t IH]; intros [|i] Hl Hv; simpl; auto.
  - inversion Hl; subst. constructor; assumption.
  - inversion Hl; subst. constructor; [assumption|]. apply IH; assumption.
Qed.

Lemma fold_set_forall (P : R -> Prop) (ps : list (nat * R)) (l : list R) :
  Forall P l -> (forall iv, In iv ps -> P (snd iv)) ->
  Forall P (fold_left set_pair ps l).
Proof.
  revert l; induction ps as [|p ps IH]; intros l Hl Hp; simpl; [exact Hl|].
  apply IH; [|intros iv Hiv; apply Hp; right; exact Hiv].
  apply forall_set_nth; [exact Hl|]. apply Hp; left; reflexivity.
Qed.

Lemma assign_priorities_fold prs idx vals new :
  assign_priorities prs idx vals = Some new ->
  exists ps, new = fold_left set_pair ps prs /\ (forall iv, In iv ps -> In (snd iv) vals).
Proof.
  unfold assign_priorities.
  destruct (Nat.eqb (length vals) (length idx)).
  - intros H; injection H as <-. exists (combine idx vals). split; [reflexivity|].
    intros [i v] Hin. exact (in_combine_r _ _ _ _ Hin).
  - destruct vals as [|v [|v' vs]]; try discriminate.
    intros H; injection H as <-. exists (combine idx (repeat v (length idx))).
    split; [reflexivity|]. intros [i x] Hin. apply in_combine_r in Hin.
    apply repeat_spec in Hin. simpl. left; symmetry; exact Hin.
Qed.

Lemma sample_frame b bs d :
  let b' := fst (sample b bs d) in
  capacity b' = capacity b /\ use_per b' = use_per b /\ alpha b' = alpha b
  /\ beta_start b' = beta_start b /\ beta_end b' = beta_end b
  /\ beta_frames b' = beta_frames b /\ slots b' = slots b
  /\ priorities b' = priorities b /\ max_priority b' = max_priority b
  /\ position b' = position b /\ size b' = size b.
Proof.
  unfold sample. destruct (_ <? _)%Z; [repeat split|]. cbv zeta.
  destruct (negb _); [repeat split|].
  destruct (use_per b) eqn:Hu; [destruct (list_max _)|];
    try destruct (beta_frames b =? 0)%Z; repeat split; simpl; congruence.
Qed.

Definition prio_inv (b : buffer) : Prop :=
  wf b /\ 0 < max_priority b
  /\ Forall (fun p => 0 < p <= max_priority b) (priorities b).

Lemma prio_inv_exec b o : prio_inv b -> prio_inv (exec_op b o).
Proof.
  intros [Hwf [Hm0 Hp]]. destruct o as [t|bs d|idx tds]; simpl.
  - destruct (add b t) as [b' r] eqn:Ha. simpl. split; [exact (wf_add b t b' r Hwf Ha)|].
    unfold add in Ha. destruct (Nat.ltb _ _); injection Ha as <- _;
      [|exact (conj Hm0 Hp)].
    simpl. split; [exact Hm0|]. destruct (use_per b); [|exact Hp].
    apply forall_set_nth; [exact Hp|]. lra.
  - destruct (sample_frame b bs d) as [Hc [_ [_ [_ [_ [_ [Hs [Hpr [Hm [Hpo Hsz]]]]]]]]]].
    unfold prio_inv, wf in *. rewrite Hc, Hs, Hpr, Hm, Hpo, Hsz.
    exact (conj Hwf (conj Hm0 Hp)).
  - unfold update_priorities. destruct (negb (use_per b)); [exact (conj Hwf (conj Hm0 Hp))|].
    destruct (negb (forallb _ _)); [exact (conj Hwf (conj Hm0 Hp))|].
    destruct (assign_priorities _ _ _) as [new|] eqn:Ea; [|exact (conj Hwf (conj Hm0 Hp))].
    destruct (assign_priorities_fold _ _ _ _ Ea) as [ps [-> Hps]].
    destruct Hwf as [H1 [H2 [H3 H4]]].
    destruct (list_max _) as [m|] eqn:Em; unfold prio_inv, wf;
      cbn [max_priority priorities slots capacity size position fst];
      (split; [rewrite fold_set_length; repeat split; assumption|]);
      (split; [try (pose proof (Rmax_l (max_priority b) m)); lra|]).
    + apply fold_set_forall.
      * eapply Forall_impl; [|exact Hp]. intros x Hx.
        pose proof (Rmax_l (max_priority b) m). lra.
      * intros iv Hiv. pose proof (Hps iv Hiv) as Hin.
        pose proof (list_max_ge _ _ Em _ Hin) as Hle.
        apply in_map_iff in Hin. destruct Hin as [e [He _]].
        split; [rewrite <- He; apply SampleFacts.rpower_pos|].
        pose proof (Rmax_r (max_priority b) m). lra.
    + apply fold_set_forall; [exact Hp|].
      intros iv Hiv. pose proof (Hps iv Hiv) as Hin.
      destruct tds; [contradiction|discriminate].
Qed.

Lemma prio_inv_run b ops : prio_inv b -> prio_inv (run b ops).
Proof.
  revert b; induction ops as [|o ops IH]; intros b H; simpl; [exact H|].
  apply IH, prio_inv_exec, H.
Qed.





Lemma beta_annealing (fc bf : Z) (bs be : R) :
  (0 < bf)%Z -> (0 <= fc)%Z ->
  (bs <= be -> bs <= bs + (be - bs) * Rmin 1 (IZR (fc + 1) / IZR bf) <= be)
  /\ ((bf <= fc + 1)%Z -> bs + (be - bs) * Rmin 1 (IZR (fc + 1) / IZR bf) = be).
Proof.
  intros Hbf Hfc.
  assert (Hb : 0 < IZR bf) by (apply IZR_lt; lia).
  assert (Hf : 0 < IZR (fc + 1)) by (apply IZR_lt; lia).
  assert (Hr : 0 < IZR (fc + 1) / IZR bf) by (apply Rdiv_lt_0_compat; assumption).
  split.
  - intros Hle. assert (0 < Rmin 1 (IZR (fc + 1) / IZR bf) <= 1).
    { unfold Rmin. destruct Rle_dec; lra. }
    nra.
  - intros Hge. rewrite Rmin_left; [ring|].
    assert (IZR bf <= IZR (fc + 1)) by (apply IZR_le; lia).
    apply (Rmult_le_reg_r (IZR bf)); [exact Hb|].
    unfold Rdiv. rewrite Rmult_assoc, Rinv_l by lra. lra.
Qed.

(** The one-transition prioritised buffer used by the sampling witnesses. *)
Definition per_buffer1 : buffer :=
  fst (add (make_buffer 2 1 true 0.6 0.4 1 100000) (zero_transition 1)).

Lemma sample_per_buffer1 :
  exists b' bt, sample per_buffer1 1 [0%nat] = (b', Ok bt).
Proof.
  pose proof SampleFacts.wf_one_add as Hwf. fold per_buffer1 in Hwf.
  assert (Hsz : size per_buffer1 = 1%nat) by reflexivity.
  unfold sample.
  replace (Z.of_nat (size per_buffer1) <? 1)%Z with false by reflexivity.
  cbv zeta. replace (use_per per_buffer1) with true by reflexivity.
  rewrite SampleFacts.choice_ok_true;
    [|lia|rewrite Hsz; simpl; lia|
      exact (SampleFacts.per_probabilities_ok per_buffer1 Hwf ltac:(rewrite Hsz; lia))].
  cbn [negb map list_max fold_left].
  replace (beta_frames per_buffer1 =? 0)%Z with false by reflexivity.
  eexists _, _. reflexivity.
Qed.

(** Over every sequence of [add], [sample] and [update_priorities] calls on
    a fresh buffer (including calls that raise), the arrays keep their
    shape, [max_priority] stays positive and every stored priority is
    positive and at most [max_priority]. *)
Theorem priorities_invariant C dim per al bs be bf ops :
  let b := run (make_buffer C dim per al bs be bf) ops in
  wf b /\ 0 < max_priority b
  /\ Forall (fun p => 0 < p <= max_priority b) (priorities b).
Proof.
  apply prio_inv_run. split; [apply wf_make_buffer|]. simpl. split; [lra|].
  apply Forall_forall. intros x Hx. apply repeat_spec in Hx. lra.
Qed.





(** A returned [sample] gives importance weights in [(0, 1]], increments
    [frame_count], anneals [beta] between [beta_start] and [beta_end]
    (reaching [beta_end] once [frame_count >= beta_frames]) and changes no
    stored transition, priority or counter. *)
Theorem sample_success_effects b bs d b' bt :
  sample b bs d = (b', Ok bt) ->
  Forall (fun w => 0 < w <= 1) (batch_weights bt)
  /\ frame_count b' = (frame_count b + 1)%Z
  /\ ((0 < beta_frames b)%Z -> (0 <= frame_count b)%Z -> beta_start b <= beta_end b ->
      beta_start b <= beta b' <= beta_end b)
  /\ ((0 < beta_frames b <= frame_count b + 1)%Z -> beta b' = beta_end b)
  /\ slots b' = slots b /\ priorities b' = priorities b
  /\ max_priority b' = max_priority b /\ size b' = size b /\ position b' = position b.
Proof.
  intros H. unfold sample in H.
  destruct (_ <? _)%Z; [discriminate|]. cbv zeta in H.
  destruct (negb _); [discriminate|].
  assert (Hfin : forall ws,
    Forall (fun w => 0 < w <= 1) ws ->
    match (beta_frames b =? 0)%Z with
    | true => ({| capacity := capacity b; state_dim := state_dim b;
                  use_per := use_per b; alpha := alpha b; beta := beta b;
                  beta_start := beta_start b; beta_end := beta_end b;
                  beta_frames := beta_frames b; slots := slots b;
                  priorities := priorities b; max_priority := max_priority b;
                  position := position b; size := size b;
                  frame_count := (frame_count b + 1)%Z |}, Err ZeroDivisionError)
    | false =>
      ({| capacity := capacity b; state_dim := state_dim b;
          use_per := use_per b; alpha := alpha b;
          beta := beta_start b + (beta_end b - beta_start b)
                  * Rmin 1 (IZR (frame_count b + 1) / IZR (beta_frames b));
          beta_start := beta_start b; beta_end := beta_end b;
          beta_frames := beta_frames b; slots := slots b;
          priorities := priorities b; max_priority := max_priority b;
          position := position b; size := size b;
          frame_count := (frame_count b + 1)%Z |},
       Ok {| batch_transitions :=
               map (fun i => nth i (slots b) (zero_transition (state_dim b))) d;
             batch_indices := d; batch_weights := ws |})
    end = (b', Ok bt) ->
    Forall (fun w => 0 < w <= 1) (batch_weights bt)
    /\ frame_count b' = (frame_count b + 1)%Z
    /\ ((0 < beta_frames b)%Z -> (0 <= frame_count b)%Z -> beta_start b <= beta_end b ->
        beta_start b <= beta b' <= beta_end b)
    /\ ((0 < beta_frames b <= frame_count b + 1)%Z -> beta b' = beta_end b)
    /\ slots b' = slots b /\ priorities b' = priorities b
    /\ max_priority b' = max_priority b /\ size b' = size b
    /\ position b' = position b).
  { intros ws Hws Hm. destruct (beta_frames b =? 0)%Z; [discriminate|].
    injection Hm as <- <-. cbn.
    split; [exact Hws|]. split; [reflexivity|]. split; [|split].
    - intros H1 H2 H3. exact (proj1 (beta_annealing _ _ _ _ H1 H2) H3).
    - intros [H1 H2]. exact (proj2 (beta_annealing (frame_count b) (beta_frames b)
                                     (beta_start b) (beta_end b)
                                     H1 ltac:(lia)) H2).
    - repeat split. }
  destruct (use_per b).
  - match type of H with context [list_max ?ws] =>
      destruct (list_max ws) as [m|] eqn:Em; [|discriminate] end.
    eapply Hfin; [|exact H].
    pose proof (list_max_ge _ _ Em) as Hge. pose proof (list_max_in _ _ Em) as Hmin.
    apply in_map_iff in Hmin. destruct Hmin as [i0 [Hm0 _]].
    assert (Hmpos : 0 < m) by (rewrite <- Hm0; apply SampleFacts.rpower_pos).
    apply Forall_map, Forall_forall. intros w Hw.
    assert (Hwp : 0 < w).
    { apply in_map_iff in Hw. destruct Hw as [j [<- _]]. apply SampleFacts.rpower_pos. }
    pose proof (Hge w Hw) as Hwm.
    split; [apply Rdiv_lt_0_compat; assumption|].
    apply (Rmult_le_reg_r m); [exact Hmpos|].
    unfold Rdiv. rewrite Rmult_assoc, Rinv_l by lra. lra.
  - eapply Hfin; [|exact H].
    apply Forall_forall. intros w Hw. apply repeat_spec in Hw. lra.
Qed.

Lemma sample_success_effects_witness :
  exists b' bt,
    sample per_buffer1 1 [0%nat] = (b', Ok bt)
    /\ Forall (fun w => 0 < w <= 1) (batch_weights bt)
    /\ frame_count b' = 1%Z.
Proof.
  destruct sample_per_buffer1 as [b' [bt Hs]].
  destruct (sample_success_effects per_buffer1 1 [0%nat] b' bt Hs) as [Hw [Hf _]].
  exists b', bt. split; [exact Hs|]. split; [exact Hw|]. rewrite Hf. reflexivity.
Defined.

(** A [sample] that raises changes nothing, with one exception: when
    [beta_frames = 0] the call increments [frame_count] before dividing by
    zero. *)
Theorem sample_error_effects b bs d b' e :
  sample b bs d = (b', Err e) ->
  (b' = b /\ e = ValueError)
  \/ (e = ZeroDivisionError /\ beta_frames b = 0%Z
      /\ frame_count b' = (frame_count b + 1)%Z
      /\ slots b' = slots b /\ priorities b' = priorities b
      /\ beta b' = beta b /\ size b' = size b).
Proof.
  unfold sample. intros H.
  destruct (_ <? _)%Z; [injection H as <- <-; left; split; reflexivity|].
  cbv zeta in H.
  destruct (negb _); [injection H as <- <-; left; split; reflexivity|].
  destruct (use_per b);
    [destruct (list_max _); [|injection H as <- <-; left; split; reflexivity]|];
    (destruct (beta_frames b =? 0)%Z eqn:Ez; [|discriminate]);
    injection H as <- <-; right; apply Z.eqb_eq in Ez;
    repeat split; assumption.
Qed.

(** A buffer without prioritisation and with [beta_frames = 0]. *)
Definition zero_frames_buffer : buffer :=
  fst (add (make_buffer 2 1 false 0.6 0.4 1 0) (zero_transition 1)).

Lemma sample_error_effects_witness :
  sample zero_frames_buffer 1 [0%nat]
  = (fst (sample zero_frames_buffer 1 [0%nat]), Err ZeroDivisionError)
  /\ frame_count (fst (sample zero_frames_buffer 1 [0%nat])) = 1%Z.
Proof.
  assert (Hs : sample zero_frames_buffer 1 [0%nat]
               = (fst (sample zero_frames_buffer 1 [0%nat]), Err ZeroDivisionError))
    by reflexivity.
  split; [exact Hs|].
  destruct (sample_error_effects _ _ _ _ _ Hs) as [[_ E]|[_ [_ [Hf _]]]];
    [discriminate|]. rewrite Hf. reflexivity.
Defined.

End BufferExtras.

Module TrainerExtras.
Import Trainer.

Lemma epsilon_after_closed (s e d : R) (n : nat) :
  0 <= e -> 0 <= d <= 1 -> e <= s -> epsilon_after s e d n = Rmax e (s * d ^ n).
Proof.
  intros He Hd Hs. induction n as [|n IH]; simpl.
  - rewrite Rmult_1_r, Rmax_right by exact Hs. reflexivity.
  - rewrite IH. unfold decay_epsilon.
    assert (Hpow : 0 <= d ^ n) by (apply pow_le; lra).
    unfold Rmax. repeat destruct Rle_dec; nra.
Qed.

Lemma deque_append_length (ws : nat) (w : list R) (x : R) :
  length (deque_append ws w x) = Nat.min (S (length w)) ws.
Proof.
  unfold deque_append. rewrite length_skipn, length_app. cbn [length]. lia.
Qed.

(** The early-stopping attributes after [e] episodes. *)
Definition stop_inv (ws e : nat) (s : stopper) : Prop :=
  length (reward_window s) = Nat.min e ws
  /\ ((e < ws)%nat -> best_avg_reward s = None /\ episodes_without_improvement s = 0%nat)
  /\ ((ws <= e)%nat -> (episodes_without_improvement s + ws <= e)%nat).

Lemma end_of_episode_inv ws p md s r e s' stop :
  stop_inv ws e s -> end_of_episode ws p md s r = (s', stop) ->
  stop_inv ws (S e) s' /\ (stop = true -> (ws + p <= S e)%nat).
Proof.
  intros [Hl [Hlt Hge]]. unfold end_of_episode.
  pose proof (deque_append_length ws (reward_window s) r) as Hw. rewrite Hl in Hw.
  remember (deque_append ws (reward_window s) r) as w eqn:Ew. clear Ew.
  cbv zeta.
  destruct (Nat.eqb_spec (length w) ws) as [Hf|Hf].
  - match goal with |- context [if ?c then mk_stopper _ _ _ else _] =>
      destruct c eqn:Ei end;
      intros H; injection H as <- <-; unfold stop_inv;
      cbn [episodes_without_improvement reward_window best_avg_reward].
    + split; [split; [lia|split; intros; [exfalso|]; lia]|].
      intros Hs. apply Nat.leb_le in Hs. lia.
    + assert (Hc : (episodes_without_improvement s + ws <= e)%nat).
      { destruct (Nat.le_gt_cases ws e) as [Hle|Hgt]; [exact (Hge Hle)|].
        destruct (Hlt Hgt) as [Hb _]. rewrite Hb in Ei.
        destruct w; [simpl in Hf; lia|discriminate]. }
      split; [split; [lia|split; intros; [exfalso|]; lia]|].
      intros Hs. apply Nat.leb_le in Hs. lia.
  - intros H; injection H as <- <-. unfold stop_inv.
    cbn [episodes_without_improvement reward_window best_avg_reward].
    split; [|discriminate].
    assert (He : (S e < ws)%nat) by lia.
    destruct (Hlt ltac:(lia)) as [Hb Hc].
    split; [lia|]. split; [intros; split; assumption|intros; lia].
Qed.

Lemma episodes_run_lower ws p md s e rewards :
  stop_inv ws e s ->
  (Nat.min (e + length rewards) (ws + p) <= e + episodes_run ws p md s rewards)%nat.
Proof.
  revert s e; induction rewards as [|r rest IH]; intros s e Hs; simpl; [lia|].
  destruct (end_of_episode ws p md s r) as [s' stop] eqn:Ee.
  destruct (end_of_episode_inv ws p md s r e s' stop Hs Ee) as [Hs' Hstop].
  destruct stop.
  - specialize (Hstop eq_refl). lia.
  - specialize (IH s' (S e) Hs'). lia.
Qed.

Lemma episodes_run_upper ws p md s rewards :
  (episodes_run ws p md s rewards <= length rewards)%nat.
Proof.
  revert s; induction rewards as [|r rest IH]; intros s; simpl; [lia|].
  destruct (end_of_episode ws p md s r) as [s' []]; [lia|].
  specialize (IH s'). lia.
Qed.

Lemma skipn_repeat_R (c : R) (k m : nat) : skipn k (repeat c m) = repeat c (m - k).
Proof.
  revert m; induction k as [|k IH]; intros m; [rewrite Nat.sub_0_r; reflexivity|].
  destruct m; [reflexivity|]. simpl. apply IH.
Qed.

Lemma repeat_snoc (c : R) (k : nat) : repeat c (S k) = repeat c k ++ [c].
Proof. induction k as [|k IH]; [reflexivity|]. simpl in *. rewrite IH. reflexivity. Qed.

Lemma mean_repeat (c : R) (k : nat) : (1 <= k)%nat -> mean (repeat c k) = c.
Proof.
  intros Hk. unfold mean. rewrite repeat_length.
  assert (Hs : sum_list (repeat c k) = INR k * c).
  { induction k as [|k IH]; [simpl; ring|].
    unfold sum_list in *. cbn [repeat fold_right]. rewrite S_INR.
    destruct k; [simpl; ring|]. rewrite IH by lia. ring. }
  rewrite Hs. field. apply not_0_INR. lia.
Qed.

(** The early-stopping attributes after [e] episodes of constant reward [c]. *)
Definition const_inv (ws e : nat) (c : R) (s : stopper) : Prop :=
  reward_window s = repeat c (Nat.min e ws)
  /\ ((e < ws)%nat -> best_avg_reward s = None /\ episodes_without_improvement s = 0%nat)
  /\ ((ws <= e)%nat -> best_avg_reward s = Some c
                     /\ (episodes_without_improvement s + ws = e)%nat).

Lemma end_of_episode_const ws p md c s e s' stop :
  (1 <= ws)%nat -> 0 <= md ->
  const_inv ws e c s -> end_of_episode ws p md s c = (s', stop) ->
  const_inv ws (S e) c s' /\ (stop = true <-> (ws + p <= S e)%nat).
Proof.
  intros Hws Hmd [Hw [Hlt Hge]]. unfold end_of_episode. rewrite Hw.
  assert (Hd : deque_append ws (repeat c (Nat.min e ws)) c = repeat c (Nat.min (S e) ws)).
  { unfold deque_append.
    replace (repeat c (Nat.min e ws) ++ [c]) with (repeat c (S (Nat.min e ws)))
      by (apply repeat_snoc).
    rewrite repeat_length, skipn_repeat_R. f_equal. lia. }
  rewrite Hd. cbv zeta. rewrite repeat_length.
  destruct (Nat.eqb_spec (Nat.min (S e) ws) ws) as [Hf|Hf].
  - assert (Hle : (ws <= S e)%nat) by lia.
    replace (Nat.min (S e) ws) with ws by lia.
    destruct (Nat.le_gt_cases ws e) as [Hwe|Hwe].
    + destruct (Hge Hwe) as [Hb Hc]. rewrite Hb.
      destruct ws as [|ws']; [lia|].
      rewrite (mean_repeat c (S ws')) by lia. cbn [repeat].
      destruct (Rlt_dec (c + md) c) as [Hr|_]; [lra|].
      intros H; injection H as <- <-. unfold const_inv.
      cbn [reward_window best_avg_reward episodes_without_improvement].
      split; [split; [replace (Nat.min (S e) (S ws')) with (S ws') by lia; reflexivity|
        split; [intros; exfalso; lia|intros; split; [reflexivity|lia]]]|].
      rewrite Nat.leb_le. lia.
    + destruct (Hlt Hwe) as [Hb Hc]. rewrite Hb.
      destruct ws as [|ws']; [lia|].
      rewrite (mean_repeat c (S ws')) by lia. cbn [repeat].
      intros H; injection H as <- <-. unfold const_inv.
      cbn [reward_window best_avg_reward episodes_without_improvement].
      split; [split; [replace (Nat.min (S e) (S ws')) with (S ws') by lia; reflexivity|
        split; [intros; exfalso; lia|intros; split; [reflexivity|lia]]]|].
      rewrite Nat.leb_le. lia.
  - intros H; injection H as <- <-. unfold const_inv.
    cbn [reward_window best_avg_reward episodes_without_improvement].
    assert (He : (S e < ws)%nat) by lia.
    destruct (Hlt ltac:(lia)) as [Hb Hc].
    split; [split; [reflexivity|split; [intros; split; assumption|intros; lia]]|].
    split; [discriminate|lia].
Qed.

Lemma episodes_run_const ws p md c s e n :
  (1 <= ws)%nat -> 0 <= md -> const_inv ws e c s -> (e < ws + p)%nat ->
  (e + episodes_run ws p md s (repeat c n) = Nat.min (e + n) (ws + p))%nat.
Proof.
  intros Hws Hmd. revert s e; induction n as [|n IH]; intros s e Hs He; simpl; [lia|].
  destruct (end_of_episode ws p md s c) as [s' stop] eqn:Ee.
  destruct (end_of_episode_const ws p md c s e s' stop Hws Hmd Hs Ee) as [Hs' Hstop].
  destruct stop.
  - pose proof (proj1 Hstop eq_refl). lia.
  - assert (Hn : (S e < ws + p)%nat).
    { destruct (Nat.lt_ge_cases (S e) (ws + p)) as [|Hge]; [assumption|].
      apply Hstop in Hge. discriminate. }
    specialize (IH s' (S e) Hs' Hn). lia.
Qed.

(** The epsilon schedule of [train()]: after [n] episodes [self.epsilon] is
    [max(epsilon_end, epsilon_start * epsilon_decay ** n)], for a
    non-negative [epsilon_end] not above [epsilon_start] and a decay in
    [[0, 1]]. *)
Theorem epsilon_schedule_closed_form (s e d : R) (n : nat) :
  0 <= e -> 0 <= d <= 1 -> e <= s ->
  epsilon_after s e d n = Rmax e (s * d ^ n).
Proof. exact (epsilon_after_closed s e d n). Qed.

Lemma epsilon_schedule_closed_form_witness :
  0 <= 0.01 /\ 0 <= 0.995 <= 1 /\ 0.01 <= 1
  /\ epsilon_after 1 0.01 0.995 3 = Rmax 0.01 (1 * 0.995 ^ 3).
Proof.
  split; [lra|]. split; [lra|]. split; [lra|].
  apply epsilon_schedule_closed_form; lra.
Defined.

(** The ['epsilon'] reported by [_get_training_metrics] for episode [i]
    (0-based), [epsilon_end + (1 - epsilon_end) * epsilon_decay ** i], is
    the epsilon in force during that episode for [i = 0] and strictly
    larger than it for every later episode, when training starts from
    epsilon 1 with [0 < epsilon_end < 1] and [0 < epsilon_decay < 1]. *)
Theorem metrics_epsilon_overstates (e d : R) :
  0 < e < 1 -> 0 < d < 1 ->
  epsilon_after 1 e d 0 = metrics_epsilon e d 0
  /\ forall i, (1 <= i)%nat -> epsilon_after 1 e d i < metrics_epsilon e d i.
Proof.
  intros He Hd. split.
  - unfold metrics_epsilon. simpl. lra.
  - intros i Hi. rewrite epsilon_after_closed by lra.
    unfold metrics_epsilon.
    assert (Hp1 : d ^ i < 1) by (apply pow_lt_1_compat; [lra|lia]).
    assert (Hp0 : 0 < d ^ i) by (apply pow_lt; lra).
    rewrite Rmult_1_l. unfold Rmax. destruct Rle_dec; nra.
Qed.

Lemma metrics_epsilon_overstates_witness :
  0 < 0.01 < 1 /\ 0 < 0.995 < 1
  /\ epsilon_after 1 0.01 0.995 1 < metrics_epsilon 0.01 0.995 1.
Proof.
  split; [lra|]. split; [lra|].
  apply (proj2 (metrics_epsilon_overstates 0.01 0.995 ltac:(lra) ltac:(lra))). lia.
Defined.

(** Early stopping never ends training before [window_size + patience]
    episodes (or before the last episode, if there are fewer), and never
    runs more episodes than configured. *)
Theorem early_stopping_bounds ws p md rewards :
  (Nat.min (length rewards) (ws + p) <= episodes_run ws p md initial_stopper rewards
   <= length rewards)%nat.
Proof.
  split; [|apply episodes_run_upper].
  apply (episodes_run_lower ws p md initial_stopper 0 rewards).
  unfold stop_inv. simpl. split; [lia|]. split; [intros; split; reflexivity|intros; lia].
Qed.

(** With a constant episode reward, a window of at least one episode and a
    non-negative [min_delta], training stops after exactly
    [window_size + patience] episodes (or runs all of them if there are
    fewer): the first full window sets the best average, which no later
    window exceeds. *)
Theorem early_stopping_constant_rewards ws p md c n :
  (1 <= ws)%nat -> 0 <= md ->
  episodes_run ws p md initial_stopper (repeat c n) = Nat.min n (ws + p).
Proof.
  intros Hws Hmd.
  assert (H0 : const_inv ws 0 c initial_stopper).
  { unfold const_inv. simpl. split; [reflexivity|].
    split; [intros; split; reflexivity|intros; lia]. }
  pose proof (episodes_run_const ws p md c initial_stopper 0 n Hws Hmd H0 ltac:(lia)).
  lia.
Qed.

Lemma early_stopping_constant_rewards_witness :
  (1 <= 2)%nat /\ 0 <= 0
  /\ episodes_run 2 1 0 initial_stopper (repeat 1 5) = 3%nat.
Proof.
  split; [lia|]. split; [lra|].
  rewrite (early_stopping_constant_rewards 2 1 0 1 5 ltac:(lia) ltac:(lra)).
  reflexivity.
Defined.

End TrainerExtras.
